(** * ENR1M SDK: the helper functions and the contract client

    A shallow embedding of [src/utils/helpers.ts] (amount formatting, share
    and yield arithmetic, validation, error classification) and of the
    [ENR1MClient] class (remote reads and writes against the deployed
    contracts), followed by the properties of the specification that are
    about them.

    JavaScript [bigint] values are [Z]; [/] and [%] on them are the truncating
    [Z.quot] and [Z.rem] and throw a [RangeError] on a zero divisor. Strings
    are [string]. A function that can throw returns a [result]. *)

From Stdlib Require Import ZArith NArith Lia List Bool Ascii String.
From Stdlib Require Import Floats.PrimFloat.
Import ListNotations.

Local Open Scope string_scope.
Local Open Scope Z_scope.

(* ===================================================================== *)
(** * Part I: definitions *)
(* ===================================================================== *)

(** ** Exceptions and the error monad *)

(** What a JavaScript [throw] can carry in this code base: the runtime's own
    errors, a plain [Error], the rejection of a remote call, and the error
    classes of [types/contracts.ts]. *)
Inductive Thrown : Type :=
| RangeError (msg : string)
| TypeError (msg : string)
| PlainError (msg : string)
| RemoteFailure (raw : string)
| ContractInteractionError (msg contractName functionName : string)
                           (originalError : Thrown)
| InsufficientBalanceError (required available : Z) (token : string)
| ClaimDeadlinePassedError (snapshotId deadline : Z)
| InvalidAmountFormat (text : string).

Inductive result (A : Type) : Type :=
| Ok (a : A)
| Throw (e : Thrown).

Arguments Ok {A} a.
Arguments Throw {A} e.

Definition bind {A B : Type} (m : result A) (k : A -> result B) : result B :=
  match m with
  | Ok a => k a
  | Throw e => Throw e
  end.

Declare Scope js_scope.
Delimit Scope js_scope with js.
Notation "x <- m ;; k" := (bind m (fun x => k))
  (at level 61, m at next level, right associativity) : js_scope.
Local Open Scope js_scope.

(** ** bigint *)

Module BigInt.

(** [a / b] on bigints: truncates toward zero, [RangeError] when [b] is 0. *)
Definition div (a b : Z) : result Z :=
  if b =? 0 then Throw (RangeError "Division by zero") else Ok (Z.quot a b).

(** [a % b] on bigints: the sign follows the dividend. *)
Definition rem (a b : Z) : result Z :=
  if b =? 0 then Throw (RangeError "Division by zero") else Ok (Z.rem a b).

(** The character of a decimal digit [d < 10]. *)
Definition digit_char (d : N) : ascii := ascii_of_N (48 + d).

(** Decimal digits of [n], most significant first, in front of [acc]. *)
Fixpoint digits_fuel (fuel : nat) (n : N) (acc : string) : string :=
  match fuel with
  | O => acc
  | S fuel' =>
      let acc' := String (digit_char (n mod 10)) acc in
      if (n / 10 =? 0)%N then acc' else digits_fuel fuel' (n / 10)%N acc'
  end.

Definition N_toString (n : N) : string :=
  digits_fuel (S (N.to_nat (N.log2 n))) n EmptyString.

(** [BigInt.prototype.toString()] in radix 10. *)
Definition toString (z : Z) : string :=
  match z with
  | Z0 => "0"
  | Zpos p => N_toString (Npos p)
  | Zneg p => "-" ++ N_toString (Npos p)
  end.

End BigInt.

(** ** Strings *)

Module JsString.

Definition is_empty (s : string) : bool :=
  match s with
  | EmptyString => true
  | String _ _ => false
  end.

Fixpoint repeat_char (c : ascii) (n : nat) : string :=
  match n with
  | O => EmptyString
  | S n' => String c (repeat_char c n')
  end.

(** [s.padStart(target, c)] for a one-character pad string [c]. *)
Definition padStart (target : nat) (c : ascii) (s : string) : string :=
  repeat_char c (target - String.length s) ++ s.

(** [s.replace(/0+$/, '')]: drops the maximal run of ['0'] that ends [s]. *)
Fixpoint strip_trailing_zeros (s : string) : string :=
  match s with
  | EmptyString => EmptyString
  | String c s' =>
      let t := strip_trailing_zeros s' in
      if Ascii.eqb c "0" && is_empty t then EmptyString else String c t
  end.

(** [s.includes(needle)]. *)
Fixpoint includes (needle s : string) : bool :=
  String.prefix needle s ||
  match s with
  | EmptyString => false
  | String _ s' => includes needle s'
  end.

End JsString.

(** ** utils/helpers.ts *)

Module Helpers.
Import BigInt JsString.

(** [formatTokenDisplay(amount, decimals = 18)]. [decimals] is a
    non-negative integer, as the specification has it. *)
Definition formatTokenDisplay (amount : Z) (decimals : nat) : result string :=
  let divisor := 10 ^ Z.of_nat decimals in
  whole <- BigInt.div amount divisor ;;
  fraction <- BigInt.rem amount divisor ;;
  if fraction =? 0 then Ok (toString whole)
  else
    let fractionStr := padStart decimals "0" (toString fraction) in
    let trimmedFraction := strip_trailing_zeros fractionStr in
    Ok (if is_empty trimmedFraction then toString whole
        else toString whole ++ "." ++ trimmedFraction).

Definition formatUSDCDisplay (amount : Z) : result string :=
  formatTokenDisplay amount 6.

(** [formatPercentage(numerator, denominator, decimals = 2)]; the body
    never reads [decimals]. *)
Definition formatPercentage (numerator denominator : Z) (decimals : nat)
  : result string :=
  if denominator =? 0 then Ok "0%"
  else
    percentage <- BigInt.div (numerator * 10000) denominator ;;
    whole <- BigInt.div percentage 100 ;;
    fraction <- BigInt.rem percentage 100 ;;
    if fraction =? 0 then Ok (toString whole ++ "%")
    else
      let fractionStr := padStart 2 "0" (toString fraction) in
      Ok (toString whole ++ "." ++ fractionStr ++ "%").

Definition calculateUserShare (userBalance totalDistribution eligibleSupply : Z)
  : result Z :=
  if eligibleSupply =? 0 then Ok 0
  else BigInt.div (totalDistribution * userBalance) eligibleSupply.

Section APY.
(** [Number(s)] on a string, the conversion of the language to a
    double; the arithmetic on doubles is the kernel's binary64. *)
Variable Number_of_string : string -> float.

Definition calculateAPY (monthlyDistribution userBalance eligibleSupply : Z)
           (tokenPriceUSD : float) : result float :=
  if (eligibleSupply =? 0) || (userBalance =? 0) then Ok PrimFloat.zero
  else
    userShare <- calculateUserShare userBalance monthlyDistribution
                                    eligibleSupply ;;
    shareText <- formatUSDCDisplay userShare ;;
    let userShareUSD := Number_of_string shareText in
    balanceText <- formatTokenDisplay userBalance 18 ;;
    let userBalanceUSD :=
      PrimFloat.mul (Number_of_string balanceText) tokenPriceUSD in
    if PrimFloat.eqb userBalanceUSD PrimFloat.zero then Ok PrimFloat.zero
    else
      let monthlyReturn := PrimFloat.div userShareUSD userBalanceUSD in
      let annualReturn := PrimFloat.mul monthlyReturn 12%float in
      Ok (PrimFloat.mul annualReturn 100%float).
End APY.

Definition validateSnapshotId (snapshotId : Z) : bool := snapshotId >? 0.

Definition validateAmount (amount : Z) : bool := amount >? 0.

End Helpers.

(** ** Parsing a decimal amount *)

Module Viem.
Import JsString.

Definition digit_of_char (c : ascii) : option N :=
  let n := N_of_ascii c in
  if ((48 <=? n) && (n <=? 57))%N then Some (n - 48)%N else None.

(** The number a string of decimal digits denotes, continuing from [acc];
    [None] when a character is not a digit. *)
Fixpoint digits_value (s : string) (acc : N) : option N :=
  match s with
  | EmptyString => Some acc
  | String c s' =>
      match digit_of_char c with
      | Some d => digits_value s' (10 * acc + d)%N
      | None => None
      end
  end.

(** A non-empty run of decimal digits. *)
Definition numeral (s : string) : option N :=
  if is_empty s then None else digits_value s 0%N.

(** The text before the first ['.'] and, when there is one, the text
    after it. *)
Fixpoint split_dot (s : string) : string * option string :=
  match s with
  | EmptyString => (EmptyString, None)
  | String c s' =>
      if Ascii.eqb c "." then (EmptyString, Some s')
      else let (w, f) := split_dot s' in (String c w, f)
  end.

(** [x / y] rounded to the nearest integer, a half rounding up. *)
Definition round_div (x y : N) : N := ((2 * x + y) / (2 * y))%N.

(** Modelled from the spec: [parseUnits] (the spec's
    [parseFromDisplayString]) belongs to the viem package, which the
    client imports and whose code is not part of the sources. The text is a
    decimal numeral with an optional fractional part,
    [digits] or [digits.digits]; the result is
    [round(numericValue * 10^exponent)], computed on integers; any other
    text fails with [InvalidAmountFormat]. *)
Definition parseUnits (text : string) (exponent : nat) : result Z :=
  let scale := (10 ^ N.of_nat exponent)%N in
  match split_dot text with
  | (w, None) =>
      match numeral w with
      | Some W => Ok (Z.of_N (W * scale))
      | None => Throw (InvalidAmountFormat text)
      end
  | (w, Some f) =>
      match numeral w, numeral f with
      | Some W, Some F =>
          let unit := (10 ^ N.of_nat (String.length f))%N in
          Ok (Z.of_N (round_div ((W * unit + F) * scale) unit))
      | _, _ => Throw (InvalidAmountFormat text)
      end
  end.

Definition parseEther (text : string) : result Z := parseUnits text 18.

End Viem.

(** ** JavaScript values and the error classifier *)

Module Classifier.
Import JsString.

(** The values [parseContractError] can be handed ([error: unknown]). An
    object is the list of its fields; the first binding of a name is the
    one read. *)
#[local] Unset Elimination Schemes.
Inductive JsValue : Type :=
| JsUndefined
| JsNull
| JsBoolean (b : bool)
| JsNumber (x : float)
| JsBigInt (z : Z)
| JsString (s : string)
| JsArray (items : list JsValue)
| JsObject (fields : list (string * JsValue)).
#[local] Set Elimination Schemes.

(** [typeof v === 'object'] *)
Definition typeof_object (v : JsValue) : bool :=
  match v with
  | JsNull | JsArray _ | JsObject _ => true
  | _ => false
  end.

(** [ToBoolean(v)] *)
Definition truthy (v : JsValue) : bool :=
  match v with
  | JsUndefined | JsNull => false
  | JsBoolean b => b
  | JsNumber x =>
      negb (PrimFloat.eqb x PrimFloat.zero) && PrimFloat.eqb x x
  | JsBigInt z => negb (z =? 0)
  | JsString s => negb (is_empty s)
  | JsArray _ | JsObject _ => true
  end.

Fixpoint lookup (key : string) (fields : list (string * JsValue))
  : option JsValue :=
  match fields with
  | [] => None
  | (k, v) :: rest => if String.eqb k key then Some v else lookup key rest
  end.

(** [key in v], for [v] an object or an array without extra properties. *)
Definition has_property (key : string) (v : JsValue) : bool :=
  match v with
  | JsObject fields =>
      match lookup key fields with Some _ => true | None => false end
  | _ => false
  end.

(** [v[key]] *)
Definition get_property (key : string) (v : JsValue) : JsValue :=
  match v with
  | JsObject fields =>
      match lookup key fields with Some x => x | None => JsUndefined end
  | _ => JsUndefined
  end.

(** [receiver.includes(needle)] for a string [needle]: the method of
    strings and of arrays; a property read on [undefined] or [null] and a
    call of what is not a function are [TypeError]s. *)
Definition call_includes (receiver : JsValue) (needle : string)
  : result bool :=
  match receiver with
  | JsString s => Ok (includes needle s)
  | JsArray items =>
      Ok (existsb (fun v => match v with
                            | JsString s => String.eqb s needle
                            | _ => false
                            end) items)
  | JsUndefined =>
      Throw (TypeError "Cannot read properties of undefined (reading 'includes')")
  | JsNull =>
      Throw (TypeError "Cannot read properties of null (reading 'includes')")
  | JsBoolean _ | JsNumber _ | JsBigInt _ | JsObject _ =>
      Throw (TypeError "message.includes is not a function")
  end.

Definition parseContractError (error : JsValue) : result JsValue :=
  match error with
  | JsString _ => Ok error
  | _ =>
      if truthy error && typeof_object error && has_property "message" error
      then
        let message := get_property "message" error in
        b1 <- call_includes message "Pausable: paused" ;;
        if b1 then Ok (JsString "Contract is currently paused") else
        b2 <- call_includes message "AccessControl:" ;;
        if b2 then Ok (JsString "Insufficient permissions for this operation") else
        b3 <- call_includes message "Already claimed" ;;
        if b3 then Ok (JsString "You have already claimed for this snapshot") else
        b4 <- call_includes message "Nothing to claim" ;;
        if b4 then Ok (JsString "No claimable amount available") else
        b5 <- call_includes message "Deadline not reached" ;;
        if b5 then Ok (JsString "Claim deadline has not been reached yet") else
        b6 <- call_includes message "Insufficient balance" ;;
        if b6 then Ok (JsString "Insufficient balance for this transaction") else
        Ok message
      else Ok (JsString "Unknown error occurred")
  end.

End Classifier.

(** ** The contract client *)

Module Client.

Definition Address := string.
Definition Hash := string.

Record ContractAddresses := {
  token : Address;
  distributor : Address;
  revenueVault : Address;
  tokenSale : option Address;
  usdc : Address
}.

(** [ContractConfig]; of the wallet client only its presence is read. *)
Record ContractConfig := {
  addresses : ContractAddresses;
  walletClient : bool
}.

Record DistributionInfo := {
  totalAmount : Z;
  claimedAmount : Z;
  createdAt : Z;
  deadlineAt : Z;
  isActive : bool
}.

Record UserInfo := {
  balance : Z;
  balanceAtSnapshot : Z;
  claimableAmount : Z;
  hasClaimed : bool
}.

Record SnapshotResult := {
  snap_snapshotId : Z;
  snap_blockNumber : Z;
  snap_timestamp : Z;
  snap_totalSupply : Z;
  snap_eligibleSupply : Z
}.

Record DistributionResult := {
  dist_snapshotId : Z;
  dist_amount : Z;
  dist_timestamp : Z;
  dist_transactionHash : Hash
}.

Record ClaimResult := {
  claim_snapshotId : Z;
  claim_amount : Z;
  claim_user : Address;
  claim_timestamp : Z;
  claim_transactionHash : Hash
}.

(** The calls the client sends over the transport, each with the type of
    its answer: contract reads and writes, the wait for a receipt (answered
    with the block number) and the wallet's account list. *)
Inductive Call : Type -> Type :=
| TokenBalanceOf (a : Address) : Call Z
| TokenBalanceOfAt (a : Address) (snapshotId : Z) : Call Z
| TokenTotalSupplyAt (snapshotId : Z) : Call Z
| TokenEligibleSupplyAt (snapshotId : Z) : Call Z
| TokenSnapshot : Call Hash
| TokenHasRole (role : Hash) (a : Address) : Call bool
| DistributorClaimable (snapshotId : Z) (a : Address) : Call Z
| DistributorGetDistributionInfo (snapshotId : Z) : Call DistributionInfo
| DistributorClaimed (snapshotId : Z) (a : Address) : Call bool
| DistributorClaim (snapshotId : Z) : Call Hash
| DistributorDistribute (snapshotId amount : Z) : Call Hash
| VaultDeposit (amount : Z) : Call Hash
| VaultFundDistribution (amount : Z) : Call Hash
| UsdcBalanceOf (a : Address) : Call Z
| UsdcApprove (spender : Address) (amount : Z) : Call Hash
| WaitForTransactionReceipt (h : Hash) : Call Z
| GetAddresses : Call (list Address).

(** What a run leaves behind: the calls sent, in order, each answered or
    rejected, and the lines written with [console.warn]. *)
Inductive Event : Type :=
| Answered {R : Type} (c : Call R)
| Rejected {R : Type} (c : Call R) (raw : string)
| Warned (msg : string) (error : Thrown).

Definition is_rejection (ev : Event) : bool :=
  match ev with Rejected _ _ => true | _ => false end.

Definition is_warning (ev : Event) : bool :=
  match ev with Warned _ _ => true | _ => false end.

Definition has_rejection (evs : list Event) : bool := existsb is_rejection evs.

Definition warnings (evs : list Event) : list Event := filter is_warning evs.

Section WithTransport.
(** The remote side: every call is answered or rejected with an opaque
    payload and moves the world on; the clock is [Date.now()]. Calls are
    answered in the order in which they are sent. *)
Variable World : Type.
Variable transport : forall R : Type, Call R -> World -> (string + R) * World.
Variable clock : World -> Z * World.
Variable config : ContractConfig.

Record Run (A : Type) : Type := {
  outcome : result A;
  final : World;
  events : list Event
}.
Arguments outcome {A} _.
Arguments final {A} _.
Arguments events {A} _.

Definition M (A : Type) : Type := World -> Run A.

Definition ret {A : Type} (a : A) : M A :=
  fun w => {| outcome := Ok a; final := w; events := [] |}.

Definition throw {A : Type} (e : Thrown) : M A :=
  fun w => {| outcome := Throw e; final := w; events := [] |}.

Definition mbind {A B : Type} (m : M A) (k : A -> M B) : M B :=
  fun w =>
    let r := m w in
    match outcome r with
    | Ok a =>
        let r' := k a (final r) in
        {| outcome := outcome r'; final := final r';
           events := events r ++ events r' |}
    | Throw e =>
        {| outcome := Throw e; final := final r; events := events r |}
    end.

(** [try { body } catch (error) { handler }] *)
Definition try_catch {A : Type} (body : M A) (handler : Thrown -> M A) : M A :=
  fun w =>
    let r := body w in
    match outcome r with
    | Ok a => r
    | Throw e =>
        let r' := handler e (final r) in
        {| outcome := outcome r'; final := final r';
           events := events r ++ events r' |}
    end.

(** [await] of one call over the transport. *)
Definition remote {R : Type} (c : Call R) : M R :=
  fun w =>
    match transport R c w with
    | (inr r, w') =>
        {| outcome := Ok r; final := w'; events := [Answered c] |}
    | (inl raw, w') =>
        {| outcome := Throw (RemoteFailure raw); final := w';
           events := [Rejected c raw] |}
    end.

(** [Date.now()] *)
Definition date_now : M Z :=
  fun w => let (t, w') := clock w in
           {| outcome := Ok t; final := w'; events := [] |}.

(** [console.warn(msg, error)] *)
Definition console_warn (msg : string) (error : Thrown) : M unit :=
  fun w => {| outcome := Ok tt; final := w; events := [Warned msg error] |}.

(** [await Promise.all([m1, m2])]: both are started, and a failure of
    either fails the whole. When both fail the language reports the one that
    settles first; here it is the first of the list. *)
Definition promise_all2 {A B : Type} (m1 : M A) (m2 : M B) : M (A * B) :=
  fun w =>
    let r1 := m1 w in
    let r2 := m2 (final r1) in
    {| outcome :=
         match outcome r1, outcome r2 with
         | Ok a, Ok b => Ok (a, b)
         | Throw e, _ => Throw e
         | Ok _, Throw e => Throw e
         end;
       final := final r2;
       events := events r1 ++ events r2 |}.

Notation "x <- m ;;; k" := (mbind m (fun x => k))
  (at level 61, m at next level, right associativity).

Definition no_wallet : Thrown :=
  PlainError "Wallet client required for write operations".

(** *** Token operations *)

Definition getTokenBalance (a : Address) : M Z :=
  try_catch (remote (TokenBalanceOf a))
    (fun error => throw (ContractInteractionError
       "Failed to get token balance" "ENR1MToken" "balanceOf" error)).

Definition getTokenBalanceAtSnapshot (a : Address) (snapshotId : Z) : M Z :=
  try_catch (remote (TokenBalanceOfAt a snapshotId))
    (fun error => throw (ContractInteractionError
       "Failed to get token balance at snapshot" "ENR1MToken" "balanceOfAt"
       error)).

Definition getTotalSupplyAtSnapshot (snapshotId : Z) : M Z :=
  try_catch (remote (TokenTotalSupplyAt snapshotId))
    (fun error => throw (ContractInteractionError
       "Failed to get total supply at snapshot" "ENR1MToken" "totalSupplyAt"
       error)).

Definition getEligibleSupplyAtSnapshot (snapshotId : Z) : M Z :=
  try_catch (remote (TokenEligibleSupplyAt snapshotId))
    (fun error => throw (ContractInteractionError
       "Failed to get eligible supply at snapshot" "ENR1MToken"
       "eligibleSupplyAt" error)).

Definition createSnapshot : M SnapshotResult :=
  if negb (walletClient config) then throw no_wallet
  else
    try_catch
      (hash <- remote TokenSnapshot ;;;
       blockNumber <- remote (WaitForTransactionReceipt hash) ;;;
       snapshotId <- date_now ;;;
       supplies <- promise_all2 (getTotalSupplyAtSnapshot snapshotId)
                                (getEligibleSupplyAtSnapshot snapshotId) ;;;
       now <- date_now ;;;
       ret {| snap_snapshotId := snapshotId;
              snap_blockNumber := blockNumber;
              snap_timestamp := now / 1000;
              snap_totalSupply := fst supplies;
              snap_eligibleSupply := snd supplies |})
      (fun error => throw (ContractInteractionError
         "Failed to create snapshot" "ENR1MToken" "snapshot" error)).

(** *** Distribution operations *)

Definition getClaimableAmount (a : Address) (snapshotId : Z) : M Z :=
  try_catch (remote (DistributorClaimable snapshotId a))
    (fun error => throw (ContractInteractionError
       "Failed to get claimable amount" "Distributor" "claimable" error)).

Definition getDistributionInfo (snapshotId : Z) : M DistributionInfo :=
  try_catch (remote (DistributorGetDistributionInfo snapshotId))
    (fun error => throw (ContractInteractionError
       "Failed to get distribution info" "Distributor" "getDistributionInfo"
       error)).

Definition getUserInfo (a : Address) (snapshotId : Z) : M UserInfo :=
  try_catch
    (r <- promise_all2 (getTokenBalance a)
           (promise_all2 (getTokenBalanceAtSnapshot a snapshotId)
              (promise_all2 (getClaimableAmount a snapshotId)
                 (remote (DistributorClaimed snapshotId a)))) ;;;
     ret {| balance := fst r;
            balanceAtSnapshot := fst (snd r);
            claimableAmount := fst (snd (snd r));
            hasClaimed := snd (snd (snd r)) |})
    (fun error => throw (ContractInteractionError
       "Failed to get user info" "Multiple contracts" "getUserInfo" error)).

(** [const [account] = await walletClient.getAddresses()]; with no
    account the name is left undefined. *)
Definition first_account (accounts : list Address) : Address :=
  hd "undefined" accounts.

(** [new ClaimDeadlinePassedError(snapshotId, deadline)]. The constructor
    writes the deadline into the message with
    [new Date(Number(deadline) * 1000).toISOString()], and that throws a
    [RangeError] for a time that is no date, more than 8.64e15 ms from the
    epoch; what [throw new ClaimDeadlinePassedError(...)] throws is then
    that [RangeError]. *)
Definition new_ClaimDeadlinePassedError (snapshotId deadline : Z) : Thrown :=
  if (-8640000000000 <=? deadline) && (deadline <=? 8640000000000)
  then ClaimDeadlinePassedError snapshotId deadline
  else RangeError "Invalid time value".

Definition claim (snapshotId : Z) : M ClaimResult :=
  if negb (walletClient config) then throw no_wallet
  else
    try_catch
      (accounts <- remote GetAddresses ;;;
       let account := first_account accounts in
       r <- promise_all2 (getClaimableAmount account snapshotId)
              (promise_all2 (remote (DistributorClaimed snapshotId account))
                            (getDistributionInfo snapshotId)) ;;;
       let claimable := fst r in
       let claimed := fst (snd r) in
       let distributionInfo := snd (snd r) in
       if claimed : bool then
         throw (PlainError "Already claimed for this snapshot")
       else if claimable =? 0 then
         throw (PlainError "Nothing to claim for this snapshot")
       else if negb (isActive distributionInfo) then
         throw (new_ClaimDeadlinePassedError snapshotId
                                             (deadlineAt distributionInfo))
       else
         hash <- remote (DistributorClaim snapshotId) ;;;
         _ <- remote (WaitForTransactionReceipt hash) ;;;
         now <- date_now ;;;
         ret {| claim_snapshotId := snapshotId;
                claim_amount := claimable;
                claim_user := account;
                claim_timestamp := now / 1000;
                claim_transactionHash := hash |})
      (fun error =>
         match error with
         | ClaimDeadlinePassedError _ _ => throw error
         | _ => throw (ContractInteractionError
                  "Failed to claim profits" "Distributor" "claim" error)
         end).

(** The [for ... of] loop of [claimMultiple]; [results] is the array
    pushed to. *)
Fixpoint claim_loop (snapshotIds : list Z) (results : list ClaimResult)
  : M (list ClaimResult) :=
  match snapshotIds with
  | [] => ret results
  | snapshotId :: rest =>
      results' <- try_catch
                    (r <- claim snapshotId ;;; ret (results ++ [r])%list)
                    (fun error =>
                       _ <- console_warn
                              ("Failed to claim snapshot "
                                 ++ BigInt.toString snapshotId ++ ":")
                              error ;;;
                       ret results) ;;;
      claim_loop rest results'
  end.

(** The body of that loop on its own: one claim of the batch, its
    result pushed, or its failure written to the console and dropped. *)
Definition attempt (snapshotId : Z) (results : list ClaimResult)
  : M (list ClaimResult) :=
  try_catch
    (r <- claim snapshotId ;;; ret (results ++ [r])%list)
    (fun error =>
       _ <- console_warn
              ("Failed to claim snapshot "
                 ++ BigInt.toString snapshotId ++ ":")
              error ;;;
       ret results).

Definition claimMultiple (snapshotIds : list Z) : M (list ClaimResult) :=
  if negb (walletClient config) then throw no_wallet
  else
    try_catch
      (_ <- remote GetAddresses ;;;
       claim_loop snapshotIds [])
      (fun error => throw (ContractInteractionError
         "Failed to claim multiple profits" "Distributor" "claimMultiple"
         error)).

(** *** Operator operations *)

Definition depositRevenue (amount : Z) : M Hash :=
  if negb (walletClient config) then throw no_wallet
  else
    try_catch
      (accounts <- remote GetAddresses ;;;
       let account := first_account accounts in
       available <- remote (UsdcBalanceOf account) ;;;
       if available <? amount then
         throw (InsufficientBalanceError amount available "USDC")
       else
         approveHash <- remote (UsdcApprove
                                  (revenueVault (addresses config)) amount) ;;;
         _ <- remote (WaitForTransactionReceipt approveHash) ;;;
         depositHash <- remote (VaultDeposit amount) ;;;
         _ <- remote (WaitForTransactionReceipt depositHash) ;;;
         ret depositHash)
      (fun error =>
         match error with
         | InsufficientBalanceError _ _ _ => throw error
         | _ => throw (ContractInteractionError
                  "Failed to deposit revenue" "RevenueVault" "deposit" error)
         end).

Definition fundDistribution (amount : Z) : M Hash :=
  if negb (walletClient config) then throw no_wallet
  else
    try_catch
      (hash <- remote (VaultFundDistribution amount) ;;;
       _ <- remote (WaitForTransactionReceipt hash) ;;;
       ret hash)
      (fun error => throw (ContractInteractionError
         "Failed to fund distribution" "RevenueVault" "fundDistribution"
         error)).

Definition createDistribution (snapshotId amount : Z) : M DistributionResult :=
  if negb (walletClient config) then throw no_wallet
  else
    try_catch
      (hash <- remote (DistributorDistribute snapshotId amount) ;;;
       _ <- remote (WaitForTransactionReceipt hash) ;;;
       now <- date_now ;;;
       ret {| dist_snapshotId := snapshotId;
              dist_amount := amount;
              dist_timestamp := now / 1000;
              dist_transactionHash := hash |})
      (fun error => throw (ContractInteractionError
         "Failed to create distribution" "Distributor" "distribute" error)).

(** *** Utility methods *)

Definition parseTokenAmount (amount : string) : result Z :=
  Viem.parseEther amount.

Definition parseUSDCAmount (amount : string) : result Z :=
  Viem.parseUnits amount 6.

Definition hasRole (role : string) (a : Address) : M bool :=
  try_catch (remote (TokenHasRole role a))
            (fun _ => ret false).

(** *** The operations that reach the transport *)

Inductive Operation : Type -> Type :=
| OpGetTokenBalance (a : Address) : Operation Z
| OpGetTokenBalanceAtSnapshot (a : Address) (snapshotId : Z) : Operation Z
| OpGetTotalSupplyAtSnapshot (snapshotId : Z) : Operation Z
| OpGetEligibleSupplyAtSnapshot (snapshotId : Z) : Operation Z
| OpCreateSnapshot : Operation SnapshotResult
| OpGetClaimableAmount (a : Address) (snapshotId : Z) : Operation Z
| OpGetDistributionInfo (snapshotId : Z) : Operation DistributionInfo
| OpGetUserInfo (a : Address) (snapshotId : Z) : Operation UserInfo
| OpClaim (snapshotId : Z) : Operation ClaimResult
| OpClaimMultiple (snapshotIds : list Z) : Operation (list ClaimResult)
| OpDepositRevenue (amount : Z) : Operation Hash
| OpFundDistribution (amount : Z) : Operation Hash
| OpCreateDistribution (snapshotId amount : Z) : Operation DistributionResult
| OpHasRole (role : string) (a : Address) : Operation bool.

Definition exec {R : Type} (op : Operation R) : M R :=
  match op in Operation T return M T with
  | OpGetTokenBalance a => getTokenBalance a
  | OpGetTokenBalanceAtSnapshot a i => getTokenBalanceAtSnapshot a i
  | OpGetTotalSupplyAtSnapshot i => getTotalSupplyAtSnapshot i
  | OpGetEligibleSupplyAtSnapshot i => getEligibleSupplyAtSnapshot i
  | OpCreateSnapshot => createSnapshot
  | OpGetClaimableAmount a i => getClaimableAmount a i
  | OpGetDistributionInfo i => getDistributionInfo i
  | OpGetUserInfo a i => getUserInfo a i
  | OpClaim i => claim i
  | OpClaimMultiple ids => claimMultiple ids
  | OpDepositRevenue amount => depositRevenue amount
  | OpFundDistribution amount => fundDistribution amount
  | OpCreateDistribution i amount => createDistribution i amount
  | OpHasRole role a => hasRole role a
  end.

Definition is_claimMultiple {R : Type} (op : Operation R) : bool :=
  match op with OpClaimMultiple _ => true | _ => false end.

Definition is_hasRole {R : Type} (op : Operation R) : bool :=
  match op with OpHasRole _ _ => true | _ => false end.

(** The claims of a batch taken one by one, each outcome kept: what
    [claimMultiple] attempts. *)
Fixpoint claim_each (snapshotIds : list Z) (w : World)
  : list (Z * result ClaimResult) * World :=
  match snapshotIds with
  | [] => ([], w)
  | snapshotId :: rest =>
      let r := claim snapshotId w in
      let (outs, w') := claim_each rest (final r) in
      ((snapshotId, outcome r) :: outs, w')
  end.

End WithTransport.

Arguments outcome {World A} _.
Arguments final {World A} _.
Arguments events {World A} _.
Arguments ret {World A} a _.
Arguments throw {World A} e _.
Arguments mbind {World A B} m k _.
Arguments try_catch {World A} body handler _.
Arguments promise_all2 {World A B} m1 m2 _.
Arguments console_warn {World} msg error _.

Definition succeeded (outs : list (Z * result ClaimResult)) : list ClaimResult :=
  flat_map (fun o => match snd o with Ok r => [r] | Throw _ => [] end) outs.

Definition failed (outs : list (Z * result ClaimResult)) : list (Z * Thrown) :=
  flat_map (fun o => match snd o with Ok _ => [] | Throw e => [(fst o, e)] end)
           outs.

(** The line [claimMultiple] writes for a claim that failed. *)
Definition warning_of (o : Z * Thrown) : Event :=
  Warned ("Failed to claim snapshot " ++ BigInt.toString (fst o) ++ ":")
         (snd o).

End Client.

(** ** Transports to run the client against *)

Module Scenario.
Import Client.

Definition local_addresses : ContractAddresses :=
  {| token := "0xe7f1725E7734CE288F8367e1Bb143E90bb3F0512";
     distributor := "0xCf7Ed3AccA5a467e9e704C703E8D87F634fB0Fc9";
     revenueVault := "0x9fE46736679d2D9a65F0992F2272dE9f3c7fa6e0";
     tokenSale := None;
     usdc := "0x5FbDB2315678afecb367f032d93F642f64180aa3" |}.

Definition with_wallet : ContractConfig :=
  {| addresses := local_addresses; walletClient := true |}.

(** A node that cannot be reached: every call is rejected. *)
Definition offline (R : Type) (c : Call R) (w : unit) : (string + R) * unit :=
  (inl "fetch failed", w).

Definition still_clock (w : unit) : Z * unit := (1700000000000, w).

(** A node that answers as the mocks of the client tests do, and counts
    the calls it has seen; on it the claim for snapshot 2 reverts. *)
Definition ledger (R : Type) (c : Call R) (w : nat) : (string + R) * nat :=
  match c in Call T return (string + T) * nat with
  | TokenBalanceOf _ => (inr 1000000000000000000000, S w)
  | TokenBalanceOfAt _ _ => (inr 1000000000000000000000, S w)
  | TokenTotalSupplyAt _ => (inr 350000000000000000000000, S w)
  | TokenEligibleSupplyAt _ => (inr 315000000000000000000000, S w)
  | TokenSnapshot => (inr "0x123hash", S w)
  | TokenHasRole _ _ => (inr true, S w)
  | DistributorClaimable _ _ => (inr 100000000, S w)
  | DistributorGetDistributionInfo _ =>
      (inr {| totalAmount := 15000000000;
              claimedAmount := 5000000000;
              createdAt := 1697472000;
              deadlineAt := 1705248000;
              isActive := true |}, S w)
  | DistributorClaimed _ _ => (inr false, S w)
  | DistributorClaim snapshotId =>
      if snapshotId =? 2 then (inl "execution reverted", S w)
      else (inr "0x456hash", S w)
  | DistributorDistribute _ _ => (inr "0x789hash", S w)
  | VaultDeposit _ => (inr "0xabchash", S w)
  | VaultFundDistribution _ => (inr "0xdefhash", S w)
  | UsdcBalanceOf _ => (inr 1000000000000000000000, S w)
  | UsdcApprove _ _ => (inr "0x111hash", S w)
  | WaitForTransactionReceipt _ => (inr 18000000, S w)
  | GetAddresses => (inr ["0xf39Fd6e5"], S w)
  end.

Definition ticking_clock (w : nat) : Z * nat :=
  (1700000000000 + Z.of_nat w, w).

End Scenario.

(** ** The texts the formatters are compared with *)

Module Expected.
Import BigInt JsString Helpers.

(** The text [formatTokenDisplay] produces for a non-negative amount. *)
Definition display_text (n : N) (e : nat) : string :=
  let w := (n / 10 ^ N.of_nat e)%N in
  let f := (n mod 10 ^ N.of_nat e)%N in
  if (f =? 0)%N then N_toString w
  else
    let t := strip_trailing_zeros (padStart e "0" (N_toString f)) in
    if is_empty t then N_toString w else N_toString w ++ "." ++ t.

(** The percentage as the specification words it: the quotient at
    [precisionDigits + 2] digits, split and trimmed by the amount codec,
    then ['%']. *)
Definition formatPercentage_spec (numerator denominator : Z)
           (precisionDigits : nat) : result string :=
  if denominator =? 0 then Ok "0%"
  else
    scaled <- BigInt.div (numerator * 10 ^ Z.of_nat (precisionDigits + 2))
                         denominator ;;
    text <- formatTokenDisplay scaled precisionDigits ;;
    Ok (text ++ "%").

(** The same percentage with the trimming left out: the fraction keeps
    all its [precisionDigits] digits. *)
Definition formatPercentage_untrimmed (numerator denominator : Z)
           (precisionDigits : nat) : result string :=
  if denominator =? 0 then Ok "0%"
  else
    scaled <- BigInt.div (numerator * 10 ^ Z.of_nat (precisionDigits + 2))
                         denominator ;;
    let unit := 10 ^ Z.of_nat precisionDigits in
    whole <- BigInt.div scaled unit ;;
    fraction <- BigInt.rem scaled unit ;;
    if fraction =? 0 then Ok (toString whole ++ "%")
    else Ok (toString whole ++ "."
               ++ padStart precisionDigits "0" (toString fraction) ++ "%").

(** A fraction of a percent on exactly two digits. *)
Definition two_digits (f : N) : string :=
  String (digit_char (f / 10)) (String (digit_char (f mod 10)) EmptyString).

(** The text of [q] hundredths of a percent: the whole part, then, unless
    the hundredths are 0, a ['.'] and both their digits, then ['%']. *)
Definition hundredths_text (q : N) : string :=
  N_toString (q / 100)
  ++ (if (q mod 100 =? 0)%N then EmptyString else "." ++ two_digits (q mod 100))
  ++ "%".

End Expected.

(** ** What it means for an operation to hand a failure on *)

Module Propagation.
Import Client.

(** The error a failed operation hands to its caller. *)
Definition propagated (e : Thrown) : Prop :=
  exists msg contractName functionName originalError,
    e = ContractInteractionError msg contractName functionName originalError.

(** A rejection as the transport raised it, or one already wrapped. *)
Definition from_transport (e : Thrown) : bool :=
  match e with
  | RemoteFailure _ | ContractInteractionError _ _ _ _ => true
  | _ => false
  end.

Section Invariants.
Variable World : Type.

(** A computation that cannot lose a rejection: if the transport
    rejected one of its calls, it throws that failure on. *)
Definition sound {A : Type} (m : M World A) : Prop :=
  forall w,
    has_rejection (events (m w)) = true ->
    exists e, outcome (m w) = Throw e /\ from_transport e = true.

(** Whatever it throws comes from the transport. *)
Definition guarded {A : Type} (m : M World A) : Prop :=
  forall w e, outcome (m w) = Throw e -> from_transport e = true.

(** A rejection reaches the caller as a [ContractInteractionError]. *)
Definition propagates {A : Type} (m : M World A) : Prop :=
  forall w,
    has_rejection (events (m w)) = true ->
    exists e, outcome (m w) = Throw e /\ propagated e.

(** It writes nothing to the console. *)
Definition quiet {A : Type} (m : M World A) : Prop :=
  forall w, warnings (events (m w)) = [].

(** A handler that only throws. *)
Definition rethrows {A : Type} (handler : Thrown -> M World A)
           (f : Thrown -> Thrown) : Prop :=
  forall e, handler e = throw (f e).

End Invariants.

Arguments sound {World A} m.
Arguments guarded {World A} m.
Arguments propagates {World A} m.
Arguments quiet {World A} m.
Arguments rethrows {World A} handler f.

End Propagation.

(** ** More transports *)

Module MoreScenarios.
Import Client.

Definition without_wallet : ContractConfig :=
  {| addresses := Scenario.local_addresses; walletClient := false |}.

(** The ledger of the tests, on which every snapshot is already
    claimed. *)
Definition already_claimed (R : Type) (c : Call R) (w : nat)
  : (string + R) * nat :=
  match c in Call T return (string + T) * nat with
  | DistributorClaimed _ _ => (inr true, S w)
  | c' => Scenario.ledger _ c' w
  end.

(** The same ledger with 5 units of USDC in the wallet. *)
Definition short_of_usdc (R : Type) (c : Call R) (w : nat)
  : (string + R) * nat :=
  match c in Call T return (string + T) * nat with
  | UsdcBalanceOf _ => (inr 5, S w)
  | c' => Scenario.ledger _ c' w
  end.

(** The same ledger once the distribution is closed, its deadline at
    [deadline] seconds. *)
Definition lapsed (deadline : Z) (R : Type) (c : Call R) (w : nat)
  : (string + R) * nat :=
  match c in Call T return (string + T) * nat with
  | DistributorGetDistributionInfo _ =>
      (inr {| totalAmount := 15000000000;
              claimedAmount := 5000000000;
              createdAt := 1697472000;
              deadlineAt := deadline;
              isActive := false |}, S w)
  | c' => Scenario.ledger _ c' w
  end.

(** A node whose contracts are paused: every call reverts. *)
Definition paused (R : Type) (c : Call R) (w : unit) : (string + R) * unit :=
  (inl "Pausable: paused", w).

End MoreScenarios.

(** ** utils/helpers.ts: the format validators *)

Module Validators.

(** [[a-fA-F0-9]] *)
Definition is_hex_digit (c : ascii) : bool :=
  let n := N_of_ascii c in
  ((48 <=? n) && (n <=? 57)
   || (65 <=? n) && (n <=? 70)
   || (97 <=? n) && (n <=? 102))%N.

Fixpoint all_hex (s : string) : bool :=
  match s with
  | EmptyString => true
  | String c s' => is_hex_digit c && all_hex s'
  end.

(** [/^0x[a-fA-F0-9]{count}$/.test(s)] *)
Definition prefixed_hex (count : nat) (s : string) : bool :=
  match s with
  | String "0" (String "x" body) =>
      Nat.eqb (String.length body) count && all_hex body
  | _ => false
  end.

Definition isValidAddress (address : string) : bool := prefixed_hex 40 address.

Definition isValidHash (hash : string) : bool := prefixed_hex 64 hash.

End Validators.

(** ** utils/helpers.ts: the chain configurations *)

Module Config.
Import Client.

Record ChainConfig := {
  chainId : Z;
  name : string;
  rpcUrl : string;
  blockExplorer : option string;
  contracts : ContractAddresses
}.

Definition zero_address : Address := "0x0000000000000000000000000000000000000000".

(** [CHAIN_CONFIGS], a record keyed by chain id. *)
Definition CHAIN_CONFIGS : list (Z * ChainConfig) :=
  [ (137,
     {| chainId := 137;
        name := "Polygon Mainnet";
        rpcUrl := "https://polygon-rpc.com";
        blockExplorer := Some "https://polygonscan.com";
        contracts :=
          {| token := zero_address;
             distributor := zero_address;
             revenueVault := zero_address;
             tokenSale := None;
             usdc := "0x2791Bca1f2de4661ED88A30C99A7a9449Aa84174" |} |});
    (80001,
     {| chainId := 80001;
        name := "Polygon Mumbai Testnet";
        rpcUrl := "https://rpc-mumbai.maticvigil.com";
        blockExplorer := Some "https://mumbai.polygonscan.com";
        contracts :=
          {| token := zero_address;
             distributor := zero_address;
             revenueVault := zero_address;
             tokenSale := None;
             usdc := zero_address |} |});
    (31337,
     {| chainId := 31337;
        name := "Localhost";
        rpcUrl := "http://127.0.0.1:8545";
        blockExplorer := None;
        contracts :=
          {| token := "0xe7f1725E7734CE288F8367e1Bb143E90bb3F0512";
             distributor := "0xCf7Ed3AccA5a467e9e704C703E8D87F634fB0Fc9";
             revenueVault := "0x9fE46736679d2D9a65F0992F2272dE9f3c7fa6e0";
             tokenSale := None;
             usdc := "0x5FbDB2315678afecb367f032d93F642f64180aa3" |} |});
    (246,
     {| chainId := 246;
        name := "Energy Web Chain";
        rpcUrl := "https://rpc.energyweb.org";
        blockExplorer := Some "https://explorer.energyweb.org";
        contracts :=
          {| token := zero_address;
             distributor := zero_address;
             revenueVault := zero_address;
             tokenSale := None;
             usdc := zero_address |} |}) ].

(** [CHAIN_CONFIGS[chainId]] *)
Fixpoint config_at (chainId : Z) (table : list (Z * ChainConfig))
  : option ChainConfig :=
  match table with
  | [] => None
  | (k, c) :: rest => if k =? chainId then Some c else config_at chainId rest
  end.

Section ChainLookup.
(** [String(n)] on a number, the conversion the template literal of the
    error message applies to the chain id. *)
Variable Number_toString : Z -> string.

Definition unsupported (chainId : Z) : Thrown :=
  PlainError ("Unsupported chain ID: " ++ Number_toString chainId).

Definition getChainConfig (chainId : Z) : result ChainConfig :=
  match config_at chainId CHAIN_CONFIGS with
  | Some config => Ok config
  | None => Throw (unsupported chainId)
  end.

(** The chain written out in [getViemChain] for Energy Web. *)
Record ChainLiteral := {
  lit_id : Z;
  lit_name : string;
  lit_currency_decimals : Z;
  lit_currency_name : string;
  lit_currency_symbol : string;
  lit_rpc_default : list string;
  lit_rpc_public : list string;
  lit_explorer_name : string;
  lit_explorer_url : string
}.

(** A chain of the viem package, imported by name, or one written out. *)
Inductive ViemChain : Type :=
| polygon
| polygonMumbai
| localhost
| chain_literal (c : ChainLiteral).

Definition getViemChain (chainId : Z) : result ViemChain :=
  if chainId =? 137 then Ok polygon
  else if chainId =? 80001 then Ok polygonMumbai
  else if chainId =? 31337 then Ok localhost
  else if chainId =? 246 then
    Ok (chain_literal
          {| lit_id := 246;
             lit_name := "Energy Web Chain";
             lit_currency_decimals := 18;
             lit_currency_name := "Energy Web Token";
             lit_currency_symbol := "EWT";
             lit_rpc_default := ["https://rpc.energyweb.org"];
             lit_rpc_public := ["https://rpc.energyweb.org"];
             lit_explorer_name := "Energy Web Chain Explorer";
             lit_explorer_url := "https://explorer.energyweb.org" |})
  else Throw (unsupported chainId).

End ChainLookup.

(** [SUPPORTED_CHAINS] of [types/contracts.ts]. *)
Definition SUPPORTED_CHAINS : list (string * Z) :=
  [ ("POLYGON", 137); ("MUMBAI", 80001); ("LOCALHOST", 31337);
    ("ENERGY_WEB", 246) ].

End Config.

(** ** A distribution among several holders *)

Module Holders.
Import Helpers.

Definition total (amounts : list Z) : Z := fold_right Z.add 0 amounts.

(** [calculateUserShare] for each holder of a list of balances. *)
Definition all_shares (balances : list Z) (totalDistribution eligibleSupply : Z)
  : list (result Z) :=
  map (fun b => calculateUserShare b totalDistribution eligibleSupply) balances.

End Holders.

(** ** Texts *)

Module Texts.

(** Whether the last character of [s] is [c]. *)
Fixpoint ends_with (c : ascii) (s : string) : bool :=
  match s with
  | EmptyString => false
  | String c' EmptyString => Ascii.eqb c' c
  | String _ s' => ends_with c s'
  end.

End Texts.

(** ** The table behind the error classifier *)

Module ErrorTable.

(** The substrings [parseContractError] looks for, in the order of its
    tests, each with the sentence it answers. *)
Definition known_errors : list (string * string) :=
  [ ("Pausable: paused", "Contract is currently paused");
    ("AccessControl:", "Insufficient permissions for this operation");
    ("Already claimed", "You have already claimed for this snapshot");
    ("Nothing to claim", "No claimable amount available");
    ("Deadline not reached", "Claim deadline has not been reached yet");
    ("Insufficient balance", "Insufficient balance for this transaction") ].

(** The first known error whose substring occurs in [message] decides; the
    message itself stands when there is none. *)
Definition classify (message : string) : string :=
  match find (fun entry => JsString.includes (fst entry) message)
             known_errors with
  | Some entry => snd entry
  | None => message
  end.

End ErrorTable.

(** ** What the client sends *)

Module Traffic.
Import Client.

(** The calls made through [contract.write]: they submit a transaction. *)
Definition is_write_call {R : Type} (c : Call R) : bool :=
  match c with
  | TokenSnapshot | DistributorClaim _ | DistributorDistribute _ _
  | VaultDeposit _ | VaultFundDistribution _ | UsdcApprove _ _ => true
  | _ => false
  end.

Definition is_write (ev : Event) : bool :=
  match ev with
  | Answered c => is_write_call c
  | Rejected c _ => is_write_call c
  | Warned _ _ => false
  end.

Definition writes (evs : list Event) : list Event := filter is_write evs.

(** The operations that start with the wallet check. *)
Definition requires_wallet {R : Type} (op : Operation R) : bool :=
  match op with
  | OpCreateSnapshot | OpClaim _ | OpClaimMultiple _ | OpDepositRevenue _
  | OpFundDistribution _ | OpCreateDistribution _ _ => true
  | _ => false
  end.

(** An error raised by one of the checks [claim] makes before it
    transacts. *)
Definition is_check_failure (e : Thrown) : bool :=
  match e with
  | PlainError _ | ClaimDeadlinePassedError _ _ => true
  | _ => false
  end.

(** Such an error as the caller of [claim] sees it: the passed deadline
    as it is, the others inside a [ContractInteractionError]. *)
Definition reports_check_failure (e : Thrown) : bool :=
  match e with
  | ContractInteractionError _ _ _ original => is_check_failure original
  | _ => is_check_failure e
  end.

Definition is_insufficient_balance (e : Thrown) : bool :=
  match e with
  | InsufficientBalanceError _ _ _ => true
  | _ => false
  end.

(** The object a [ContractInteractionError] is, as [types/contracts.ts]
    builds it: [Error] sets [message], [ENR1MSDKError] sets [name], [code]
    and [details], the class itself the last three fields. *)
Definition ContractInteractionError_object
           (message contractName functionName : string)
           (originalError : Classifier.JsValue) : Classifier.JsValue :=
  Classifier.JsObject
    [ ("message", Classifier.JsString message);
      ("name", Classifier.JsString "ENR1MSDKError");
      ("code", Classifier.JsString "CONTRACT_INTERACTION_ERROR");
      ("details", originalError);
      ("contractName", Classifier.JsString contractName);
      ("functionName", Classifier.JsString functionName);
      ("originalError", originalError) ].

(** The first argument of every [new ContractInteractionError] of the
    client. *)
Definition wrapper_messages : list string :=
  [ "Failed to get token balance";
    "Failed to get token balance at snapshot";
    "Failed to get total supply at snapshot";
    "Failed to get eligible supply at snapshot";
    "Failed to create snapshot";
    "Failed to get claimable amount";
    "Failed to get distribution info";
    "Failed to get user info";
    "Failed to claim profits";
    "Failed to claim multiple profits";
    "Failed to deposit revenue";
    "Failed to fund distribution";
    "Failed to create distribution" ].

(** What [claim] turns a caught error into. *)
Definition claim_handler (e : Thrown) : Thrown :=
  match e with
  | ClaimDeadlinePassedError _ _ => e
  | _ => ContractInteractionError
           "Failed to claim profits" "Distributor" "claim" e
  end.

(** What [depositRevenue] turns a caught error into. *)
Definition deposit_handler (e : Thrown) : Thrown :=
  match e with
  | InsufficientBalanceError _ _ _ => e
  | _ => ContractInteractionError
           "Failed to deposit revenue" "RevenueVault" "deposit" e
  end.

(** A [ContractInteractionError] carries one of the client's own
    messages. *)
Definition own_message (e : Thrown) : Prop :=
  match e with
  | ContractInteractionError msg _ _ _ => In msg wrapper_messages
  | _ => True
  end.

Section Bodies.
Variable World : Type.
Variable transport : forall R : Type, Call R -> World -> (string + R) * World.
Variable clock : World -> Z * World.
Variable config : ContractConfig.

(** What [claim] does once the wallet check has passed: the body of its
    [try]. *)
Definition claim_body (snapshotId : Z) : M World ClaimResult :=
  mbind (remote World transport GetAddresses)
    (fun accounts =>
       let account := first_account accounts in
       mbind
         (promise_all2 (getClaimableAmount World transport account snapshotId)
            (promise_all2
               (remote World transport (DistributorClaimed snapshotId account))
               (getDistributionInfo World transport snapshotId)))
         (fun r =>
            let claimable := fst r in
            let claimed := fst (snd r) in
            let distributionInfo := snd (snd r) in
            if claimed : bool then
              throw (PlainError "Already claimed for this snapshot")
            else if claimable =? 0 then
              throw (PlainError "Nothing to claim for this snapshot")
            else if negb (isActive distributionInfo) then
              throw (new_ClaimDeadlinePassedError snapshotId
                                                  (deadlineAt distributionInfo))
            else
              mbind (remote World transport (DistributorClaim snapshotId))
                (fun hash =>
                   mbind (remote World transport
                                 (WaitForTransactionReceipt hash))
                     (fun _ =>
                        mbind (date_now World clock)
                          (fun now =>
                             ret {| claim_snapshotId := snapshotId;
                                    claim_amount := claimable;
                                    claim_user := account;
                                    claim_timestamp := now / 1000;
                                    claim_transactionHash := hash |}))))).

(** The body of the [try] of [depositRevenue]. *)
Definition deposit_body (amount : Z) : M World Hash :=
  mbind (remote World transport GetAddresses)
    (fun accounts =>
       let account := first_account accounts in
       mbind (remote World transport (UsdcBalanceOf account))
         (fun available =>
            if available <? amount then
              throw (InsufficientBalanceError amount available "USDC")
            else
              mbind (remote World transport
                            (UsdcApprove (revenueVault (addresses config))
                                         amount))
                (fun approveHash =>
                   mbind (remote World transport
                                 (WaitForTransactionReceipt approveHash))
                     (fun _ =>
                        mbind (remote World transport (VaultDeposit amount))
                          (fun depositHash =>
                             mbind (remote World transport
                                      (WaitForTransactionReceipt depositHash))
                               (fun _ => ret depositHash)))))).

End Bodies.

Section Behaviours.
Variable World : Type.

(** It submits no transaction. *)
Definition read_only {A : Type} (m : M World A) : Prop :=
  forall w, writes (events (m w)) = [].

(** Every error it throws satisfies [Q]. *)
Definition throws_only {A : Type} (m : M World A) (Q : Thrown -> Prop) : Prop :=
  forall w e, outcome (m w) = Throw e -> Q e.

(** Every value it returns satisfies [P]. *)
Definition returns {A : Type} (m : M World A) (P : A -> Prop) : Prop :=
  forall w a, outcome (m w) = Ok a -> P a.

(** When it stops on an error of the class [C] it has submitted no
    transaction. *)
Definition clean_stop {A : Type} (C : Thrown -> bool) (m : M World A) : Prop :=
  forall w e,
    outcome (m w) = Throw e -> C e = true -> writes (events (m w)) = [].

End Behaviours.

Arguments read_only {World A} m.
Arguments throws_only {World A} m Q.
Arguments returns {World A} m P.
Arguments clean_stop {World A} C m.

End Traffic.

(* ===================================================================== *)
(** * Part II: properties *)
(* ===================================================================== *)

Import Helpers.

Example calculateUserShare_test :
  calculateUserShare (10000 * 10 ^ 18) (15000 * 10 ^ 6) (315000 * 10 ^ 18)
  = Ok 476190476.
Proof. reflexivity. Qed.

Example formatTokenDisplay_test :
  formatTokenDisplay 1500000000000000000 18 = Ok "1.5"
  /\ formatTokenDisplay 1000000 6 = Ok "1"
  /\ formatTokenDisplay 0 18 = Ok "0"
  /\ formatTokenDisplay 1000500000 6 = Ok "1000.5".
Proof. repeat split; vm_compute; reflexivity. Qed.

Example formatPercentage_test :
  formatPercentage 3333 10000 2 = Ok "33.33%"
  /\ formatPercentage 50 100 2 = Ok "50%"
  /\ formatPercentage 100 0 2 = Ok "0%"
  /\ formatPercentage 1 8 2 = Ok "12.50%"
  /\ formatPercentage 1 2000 2 = Ok "0.05%".
Proof. repeat split; vm_compute; reflexivity. Qed.

(** ** The share calculator *)

Lemma div_nonneg_eq : forall a b, 0 <= a -> 0 < b -> BigInt.div a b = Ok (a / b).
Proof.
  intros a b Ha Hb. unfold BigInt.div.
  destruct (Z.eqb_spec b 0) as [E|_]; [lia|].
  now rewrite Z.quot_div_nonneg by lia.
Qed.

Lemma rem_nonneg_eq : forall a b, 0 <= a -> 0 < b -> BigInt.rem a b = Ok (a mod b).
Proof.
  intros a b Ha Hb. unfold BigInt.rem.
  destruct (Z.eqb_spec b 0) as [E|_]; [lia|].
  now rewrite Z.rem_mod_nonneg by lia.
Qed.

Lemma calculateUserShare_zero_supply : forall userBalance totalDistribution,
  calculateUserShare userBalance totalDistribution 0 = Ok 0.
Proof. reflexivity. Qed.

Lemma calculateUserShare_floor : forall userBalance totalDistribution eligibleSupply,
  0 <= userBalance -> 0 <= totalDistribution -> 0 < eligibleSupply ->
  calculateUserShare userBalance totalDistribution eligibleSupply
  = Ok ((totalDistribution * userBalance) / eligibleSupply).
Proof.
  intros b p s Hb Hp Hs. unfold calculateUserShare.
  destruct (Z.eqb_spec s 0) as [E|_]; [lia|].
  apply div_nonneg_eq; nia.
Qed.

(** C1: on non-negative inputs [calculateUserShare] is 0 for an eligible
    supply of 0 and otherwise the floor of [poolTotal * holderBalance /
    eligibleSupply], the product taken first; 10,000 tokens out of 315,000
    eligible receive 476190476 of a pool of 15,000 USDC. *)
Theorem calculateUserShare_spec :
  forall holderBalance poolTotal eligibleSupply,
    0 <= holderBalance -> 0 <= poolTotal -> 0 <= eligibleSupply ->
    (eligibleSupply = 0 ->
     calculateUserShare holderBalance poolTotal eligibleSupply = Ok 0)
    /\ (eligibleSupply <> 0 ->
        calculateUserShare holderBalance poolTotal eligibleSupply
        = Ok ((poolTotal * holderBalance) / eligibleSupply))
    /\ calculateUserShare (10000 * 10 ^ 18) (15000 * 10 ^ 6) (315000 * 10 ^ 18)
       = Ok 476190476.
Proof.
  intros b p s Hb Hp Hs. repeat split.
  - intros ->. apply calculateUserShare_zero_supply.
  - intros Hne. apply calculateUserShare_floor; lia.
Qed.

Lemma calculateUserShare_spec_witness :
  (calculateUserShare 1 10 0 = Ok 0)
  /\ (calculateUserShare 1 10 3 = Ok ((10 * 1) / 3)).
Proof.
  split.
  - destruct (calculateUserShare_spec 1 10 0) as (H0 & _ & _); try lia.
    apply H0. reflexivity.
  - destruct (calculateUserShare_spec 1 10 3) as (_ & H1 & _); try lia.
    apply H1. lia.
Defined.

(** Why the product comes first: the quotient of the balance by the supply
    alone is already 0 in that scenario. *)
Remark divide_first_loses_the_share :
  BigInt.div (10000 * 10 ^ 18) (315000 * 10 ^ 18) = Ok 0.
Proof. reflexivity. Qed.

(** C6: on non-negative inputs [calculateUserShare] returns (it never
    throws), and a holder whose balance is at most the eligible supply
    receives at most the pool. *)
Theorem calculateUserShare_total_and_bounded :
  forall holderBalance poolTotal eligibleSupply,
    0 <= holderBalance -> 0 <= poolTotal -> 0 <= eligibleSupply ->
    exists share,
      calculateUserShare holderBalance poolTotal eligibleSupply = Ok share
      /\ (holderBalance <= eligibleSupply -> share <= poolTotal).
Proof.
  intros b p s Hb Hp Hs.
  destruct (Z.eq_dec s 0) as [->|Hne].
  - exists 0. split; [reflexivity | lia].
  - exists ((p * b) / s). split.
    + apply calculateUserShare_floor; lia.
    + intros Hle. apply Z.div_le_upper_bound; nia.
Qed.

Lemma calculateUserShare_total_and_bounded_witness :
  exists share,
    calculateUserShare 2 10 3 = Ok share /\ (2 <= 3 -> share <= 10).
Proof. apply (calculateUserShare_total_and_bounded 2 10 3); lia. Defined.

(** C7: for a fixed pool, a scaled amount and so not negative, and a fixed
    eligible supply above 0, [calculateUserShare] does not decrease when the
    holder balance grows. *)
Theorem calculateUserShare_monotone :
  forall poolTotal eligibleSupply bal1 bal2,
    0 <= poolTotal -> 0 < eligibleSupply -> 0 <= bal1 -> bal1 <= bal2 ->
    exists share1 share2,
      calculateUserShare bal1 poolTotal eligibleSupply = Ok share1
      /\ calculateUserShare bal2 poolTotal eligibleSupply = Ok share2
      /\ share1 <= share2.
Proof.
  intros p s b1 b2 Hp Hs Hb1 Hle.
  exists ((p * b1) / s), ((p * b2) / s). split; [|split].
  - apply calculateUserShare_floor; lia.
  - apply calculateUserShare_floor; lia.
  - apply Z.div_le_mono; nia.
Qed.

Lemma calculateUserShare_monotone_witness :
  exists share1 share2,
    calculateUserShare 1 10 3 = Ok share1
    /\ calculateUserShare 2 10 3 = Ok share2
    /\ share1 <= share2.
Proof. apply (calculateUserShare_monotone 10 3 1 2); lia. Defined.

(** ** The yield estimate *)

(** C9: [calculateAPY] returns 0, and does not throw, when the eligible
    supply or the holder balance is 0, whatever the distribution and the
    reference price are; the period count is the constant 12 of the body. *)
Theorem calculateAPY_zero_guard :
  forall (Number_of_string : string -> float)
         (periodicDistribution holderBalance eligibleSupply : Z)
         (referencePrice : float),
    eligibleSupply = 0 \/ holderBalance = 0 ->
    calculateAPY Number_of_string periodicDistribution holderBalance
                 eligibleSupply referencePrice
    = Ok PrimFloat.zero.
Proof.
  intros num d b s price [-> | ->]; unfold calculateAPY.
  - reflexivity.
  - now rewrite Z.eqb_refl, orb_true_r.
Qed.

Lemma calculateAPY_zero_guard_witness :
  calculateAPY (fun _ => PrimFloat.one) 15000000000 0 315000 PrimFloat.one
  = Ok PrimFloat.zero
  /\ calculateAPY (fun _ => PrimFloat.one) 15000000000 10000 0 PrimFloat.one
     = Ok PrimFloat.zero.
Proof.
  split.
  - apply (calculateAPY_zero_guard (fun _ => PrimFloat.one)). right. reflexivity.
  - apply (calculateAPY_zero_guard (fun _ => PrimFloat.one)). left. reflexivity.
Defined.

(** ** Validation *)

(** C10: [validateSnapshotId] is true exactly for the ids above 0; it is
    false at 0 and true at 1. *)
Theorem validateSnapshotId_spec :
  (forall id, validateSnapshotId id = true <-> id > 0)
  /\ validateSnapshotId 0 = false
  /\ validateSnapshotId 1 = true.
Proof.
  repeat split; try reflexivity.
  - unfold validateSnapshotId. intros H. now apply Z.gtb_gt.
  - unfold validateSnapshotId. intros H. apply Z.gtb_gt. lia.
Qed.

(** ** Decimal digits *)

Import BigInt JsString Viem Expected.

Lemma append_nil_r : forall s : string, s ++ EmptyString = s.
Proof. induction s as [|c s IH]; simpl; [reflexivity | now rewrite IH]. Qed.

Lemma append_assoc : forall s1 s2 s3 : string,
  (s1 ++ s2) ++ s3 = s1 ++ (s2 ++ s3).
Proof. induction s1 as [|c s1 IH]; intros; simpl; [reflexivity | now rewrite IH]. Qed.

Lemma length_append : forall s1 s2 : string,
  String.length (s1 ++ s2) = (String.length s1 + String.length s2)%nat.
Proof. induction s1 as [|c s1 IH]; intros; simpl; [reflexivity | now rewrite IH]. Qed.

Lemma length_repeat_char : forall c n, String.length (repeat_char c n) = n.
Proof. induction n as [|n IH]; simpl; [reflexivity | now rewrite IH]. Qed.

Lemma digit_of_char_digit_char : forall d,
  (d < 10)%N -> digit_of_char (digit_char d) = Some d.
Proof.
  intros d Hd. unfold digit_of_char, digit_char.
  rewrite N_ascii_embedding by lia.
  replace ((48 <=? 48 + d) && (48 + d <=? 57))%N with true.
  - f_equal. lia.
  - symmetry. apply andb_true_iff. split; apply N.leb_le; lia.
Qed.

Lemma digit_of_char_lt : forall c d, digit_of_char c = Some d -> (d < 10)%N.
Proof.
  intros c d. unfold digit_of_char.
  destruct ((48 <=? N_of_ascii c) && (N_of_ascii c <=? 57))%N eqn:E; [|discriminate].
  intros [= <-]. apply andb_true_iff in E as [E1 E2].
  apply N.leb_le in E1, E2. lia.
Qed.

Lemma pow10_succ : forall k : nat,
  (10 ^ N.of_nat (S k) = 10 * 10 ^ N.of_nat k)%N.
Proof. intros k. now rewrite Nat2N.inj_succ, N.pow_succ_r'. Qed.

Lemma pow10_pos : forall k : N, (0 < 10 ^ k)%N.
Proof. intros k. apply N.neq_0_lt_0, N.pow_nonzero. discriminate. Qed.

(** Reading digits after a prefix [acc] shifts the prefix left. *)
Lemma digits_value_acc : forall s acc,
  digits_value s acc
  = option_map (fun v => (acc * 10 ^ N.of_nat (String.length s) + v)%N)
               (digits_value s 0%N).
Proof.
  induction s as [|c s IH]; intros acc.
  - simpl. f_equal. lia.
  - cbn [digits_value String.length].
    destruct (digit_of_char c) as [d|]; [|reflexivity].
    rewrite (IH (10 * acc + d)%N), (IH (10 * 0 + d)%N).
    rewrite pow10_succ.
    destruct (digits_value s 0%N) as [v|]; cbn [option_map]; [|reflexivity].
    f_equal. ring.
Qed.

Lemma digits_value_app : forall s1 s2 acc,
  digits_value (s1 ++ s2) acc
  = match digits_value s1 acc with
    | Some v => digits_value s2 v
    | None => None
    end.
Proof.
  induction s1 as [|c s1 IH]; intros s2 acc; simpl.
  - reflexivity.
  - destruct (digit_of_char c); [apply IH | reflexivity].
Qed.

Lemma digits_value_bound : forall s v,
  digits_value s 0%N = Some v -> (v < 10 ^ N.of_nat (String.length s))%N.
Proof.
  induction s as [|c s IH]; intros v.
  - simpl. intros [= <-]. lia.
  - cbn [digits_value String.length].
    destruct (digit_of_char c) as [d|] eqn:Ed; [|discriminate].
    rewrite digits_value_acc.
    destruct (digits_value s 0%N) as [v0|]; [|discriminate].
    cbn [option_map]. intros [= <-].
    specialize (IH v0 eq_refl). apply digit_of_char_lt in Ed.
    rewrite pow10_succ. nia.
Qed.

Lemma digits_value_zeros : forall k acc,
  digits_value (repeat_char "0" k) acc = Some (acc * 10 ^ N.of_nat k)%N.
Proof.
  induction k as [|k IH]; intros acc.
  - simpl. f_equal. lia.
  - cbn [repeat_char digits_value].
    change (digit_of_char "0") with (Some 0%N). cbv iota beta.
    rewrite IH, pow10_succ. f_equal. lia.
Qed.

(** A run of digits holds no ['.']. *)
Lemma split_dot_digits : forall s acc v,
  digits_value s acc = Some v ->
  split_dot s = (s, None)
  /\ forall t, split_dot (s ++ String "." t) = (s, Some t).
Proof.
  induction s as [|c s IH]; intros acc v H.
  - split; [reflexivity | intros t; reflexivity].
  - cbn [digits_value] in H.
    destruct (digit_of_char c) as [d|] eqn:Ed; [|discriminate].
    assert (Hc : Ascii.eqb c "." = false).
    { destruct (Ascii.eqb_spec c ".") as [->|]; [discriminate Ed | reflexivity]. }
    destruct (IH _ _ H) as [H1 H2]. split.
    + cbn [split_dot]. now rewrite Hc, H1.
    + intros t. cbn [append split_dot]. now rewrite Hc, H2.
Qed.

Lemma digits_fuel_S : forall fuel n acc,
  digits_fuel (S fuel) n acc
  = if (n / 10 =? 0)%N then String (digit_char (n mod 10)) acc
    else digits_fuel fuel (n / 10)%N (String (digit_char (n mod 10)) acc).
Proof. reflexivity. Qed.

(** What [digits_fuel] writes, given enough fuel: the digits of [n], at
    least one, with no leading zero unless [n] is 0. *)
Lemma digits_fuel_spec : forall fuel n acc,
  (n < 10 ^ N.of_nat (S fuel))%N ->
  exists s,
    digits_fuel (S fuel) n acc = s ++ acc
    /\ digits_value s 0%N = Some n
    /\ (1 <= String.length s)%nat
    /\ (n <> 0%N -> (10 ^ N.of_nat (String.length s - 1) <= n)%N).
Proof.
  induction fuel as [|fuel IH]; intros n acc Hn.
  - exists (String (digit_char n) EmptyString).
    change (10 ^ N.of_nat 1)%N with 10%N in Hn.
    assert (Hq : (n / 10 = 0)%N) by (apply N.div_small; lia).
    rewrite digits_fuel_S, Hq, N.eqb_refl, N.mod_small by lia.
    split; [reflexivity|]. split; [|split].
    + cbn [digits_value]. rewrite digit_of_char_digit_char by lia.
      f_equal; lia.
    + simpl. lia.
    + simpl. lia.
  - rewrite pow10_succ in Hn.
    assert (Hm : (n mod 10 < 10)%N) by (apply N.mod_lt; lia).
    pose proof (N.div_mod n 10 ltac:(lia)) as Hdm.
    rewrite digits_fuel_S.
    destruct (N.eqb_spec (n / 10) 0) as [Hq|Hq].
    + exists (String (digit_char (n mod 10)) EmptyString).
      split; [reflexivity|]. split; [|split].
      * cbn [digits_value]. rewrite digit_of_char_digit_char by lia.
        f_equal; lia.
      * simpl. lia.
      * simpl. lia.
    + destruct (IH (n / 10)%N (String (digit_char (n mod 10)) acc))
        as (s & Hs & Hv & Hl & Hlow).
      { apply N.Div0.div_lt_upper_bound. lia. }
      exists (s ++ String (digit_char (n mod 10)) EmptyString).
      split; [|split; [|split]].
      * rewrite Hs, append_assoc. reflexivity.
      * rewrite digits_value_app, Hv. cbn [digits_value].
        rewrite digit_of_char_digit_char by lia. f_equal; lia.
      * rewrite length_append. simpl. lia.
      * intros _. rewrite length_append. cbn [String.length].
        replace (String.length s + 1 - 1)%nat with (S (String.length s - 1)) by lia.
        rewrite pow10_succ. specialize (Hlow Hq).
        clear - Hlow Hdm Hm.
        set (P := (10 ^ _)%N) in *. set (q := (n / 10)%N) in *.
        set (r := (n mod 10)%N) in *. clearbody P q r. lia.
Qed.

Lemma N_toString_fuel : forall n, (n < 10 ^ N.of_nat (S (N.to_nat (N.log2 n))))%N.
Proof.
  intros n. rewrite Nat2N.inj_succ, N2Nat.id.
  destruct (N.eq_dec n 0) as [->|Hn].
  - reflexivity.
  - destruct (N.log2_spec n ltac:(lia)) as [_ H].
    eapply N.lt_le_trans; [exact H|].
    apply N.pow_le_mono_l. lia.
Qed.

Lemma N_toString_spec : forall n,
  digits_value (N_toString n) 0%N = Some n
  /\ (1 <= String.length (N_toString n))%nat
  /\ (n <> 0%N -> (10 ^ N.of_nat (String.length (N_toString n) - 1) <= n)%N).
Proof.
  intros n. unfold N_toString.
  destruct (digits_fuel_spec _ n EmptyString (N_toString_fuel n))
    as (s & Hs & Hv & Hl & Hlow).
  rewrite Hs, append_nil_r. auto.
Qed.

Lemma N_toString_value : forall n, digits_value (N_toString n) 0%N = Some n.
Proof. intros n. apply N_toString_spec. Qed.

Lemma N_toString_numeral : forall n, numeral (N_toString n) = Some n.
Proof.
  intros n. unfold numeral.
  destruct (N_toString_spec n) as (Hv & Hl & _).
  destruct (N_toString n); [simpl in Hl; lia | exact Hv].
Qed.

(** A number below [10^e] is written with at most [e] digits. *)
Lemma N_toString_length : forall n e,
  n <> 0%N -> (n < 10 ^ N.of_nat e)%N ->
  (String.length (N_toString n) <= e)%nat.
Proof.
  intros n e Hn Hlt.
  destruct (N_toString_spec n) as (_ & Hl & Hlow). specialize (Hlow Hn).
  assert (H : (10 ^ N.of_nat (String.length (N_toString n) - 1)
               < 10 ^ N.of_nat e)%N) by lia.
  apply N.pow_lt_mono_r_iff in H; lia.
Qed.

Lemma toString_of_N : forall n, toString (Z.of_N n) = N_toString n.
Proof. intros [|p]; reflexivity. Qed.

(** What the regular expression [/0+$/] removes is a run of zeros. *)
Lemma strip_trailing_zeros_spec : forall s,
  exists k, s = strip_trailing_zeros s ++ repeat_char "0" k.
Proof.
  induction s as [|c s [k IH]].
  - exists O. reflexivity.
  - cbn [strip_trailing_zeros].
    destruct (Ascii.eqb_spec c "0") as [->|Hc]; cbn [andb].
    + destruct (strip_trailing_zeros s) as [|c' t] eqn:Et; cbn [is_empty].
      * exists (S k). cbn [repeat_char append]. f_equal. exact IH.
      * exists k. cbn [append]. f_equal. exact IH.
    + exists k. cbn [append]. f_equal. exact IH.
Qed.

(** ** The amount codec *)

Lemma pow10_of_N : forall e : nat, 10 ^ Z.of_nat e = Z.of_N (10 ^ N.of_nat e).
Proof. intros e. now rewrite N2Z.inj_pow, nat_N_Z. Qed.

Lemma formatTokenDisplay_of_N : forall n e,
  formatTokenDisplay (Z.of_N n) e = Ok (display_text n e).
Proof.
  intros n e. unfold formatTokenDisplay, display_text.
  pose proof (pow10_pos (N.of_nat e)) as Hpos.
  rewrite pow10_of_N.
  rewrite div_nonneg_eq, rem_nonneg_eq by lia.
  cbn [bind]. rewrite <- N2Z.inj_div, <- N2Z.inj_mod, !toString_of_N.
  destruct (N.eqb_spec (n mod 10 ^ N.of_nat e) 0) as [E|E].
  - rewrite E. reflexivity.
  - destruct (Z.eqb_spec (Z.of_N (n mod 10 ^ N.of_nat e)) 0) as [E'|_]; [lia|].
    reflexivity.
Qed.

Lemma round_div_exact : forall y u, (0 < u)%N -> round_div (y * u) u = y.
Proof.
  intros y u Hu. unfold round_div.
  replace (2 * (y * u) + u)%N with ((2 * y + 1) * u)%N by ring.
  rewrite N.Div0.div_mul_cancel_r by lia.
  symmetry. apply (N.div_unique _ _ _ 1%N); lia.
Qed.

(** The zero-padded fraction: exactly [e] digits that denote [f]. *)
Lemma padStart_fraction : forall f e,
  f <> 0%N -> (f < 10 ^ N.of_nat e)%N ->
  String.length (padStart e "0" (N_toString f)) = e
  /\ digits_value (padStart e "0" (N_toString f)) 0%N = Some f.
Proof.
  intros f e Hf Hlt. unfold padStart.
  pose proof (N_toString_length f e Hf Hlt) as Hlen.
  split.
  - rewrite length_append, length_repeat_char. lia.
  - rewrite digits_value_app, digits_value_zeros.
    replace (0 * 10 ^ N.of_nat (e - String.length (N_toString f)))%N with 0%N by lia.
    apply N_toString_value.
Qed.

(** The fraction with its trailing zeros dropped: [F] on [e - k] digits,
    where the fraction was [F * 10^k]. *)
Lemma trimmed_fraction : forall f e,
  f <> 0%N -> (f < 10 ^ N.of_nat e)%N ->
  let t := strip_trailing_zeros (padStart e "0" (N_toString f)) in
  exists F k,
    numeral t = Some F
    /\ (String.length t + k = e)%nat
    /\ (f = F * 10 ^ N.of_nat k)%N.
Proof.
  intros f e Hf Hlt t.
  destruct (padStart_fraction f e Hf Hlt) as [Hlen Hval].
  destruct (strip_trailing_zeros_spec (padStart e "0" (N_toString f))) as [k Hk].
  fold t in Hk. rewrite Hk in Hlen, Hval.
  rewrite length_append, length_repeat_char in Hlen.
  rewrite digits_value_app in Hval.
  destruct (digits_value t 0%N) as [F|] eqn:EF; [|discriminate].
  rewrite digits_value_zeros in Hval. injection Hval as Hval.
  exists F, k. repeat split; [|exact Hlen|now symmetry].
  unfold numeral. destruct t as [|c t']; [|exact EF].
  simpl in EF. injection EF as <-. lia.
Qed.

Lemma parseUnits_display_text : forall n e,
  parseUnits (display_text n e) e = Ok (Z.of_N n).
Proof.
  intros n e. unfold display_text.
  set (D := (10 ^ N.of_nat e)%N).
  assert (HD : (0 < D)%N) by apply pow10_pos.
  pose proof (N.div_mod n D ltac:(lia)) as Hdm.
  pose proof (N.mod_lt n D ltac:(lia)) as Hmod.
  set (w := (n / D)%N) in *. set (f := (n mod D)%N) in *.
  destruct (N.eqb_spec f 0) as [E|E].
  - unfold parseUnits.
    destruct (split_dot_digits _ _ _ (N_toString_value w)) as [-> _].
    rewrite N_toString_numeral. fold D. do 2 f_equal.
    clearbody w f D. subst f. lia.
  - destruct (trimmed_fraction f e E Hmod) as (F & k & HF & Hlen & Hf).
    set (t := strip_trailing_zeros (padStart e "0" (N_toString f))) in *.
    destruct t as [|c t'] eqn:Et; [discriminate HF|]. cbn [is_empty].
    unfold parseUnits.
    change ("." ++ String c t') with (String "." (String c t')).
    destruct (split_dot_digits _ _ _ (N_toString_value w)) as [_ ->].
    rewrite N_toString_numeral, HF. fold D.
    set (u := (10 ^ N.of_nat (String.length (String c t')))%N).
    assert (Hu : (0 < u)%N) by apply pow10_pos.
    assert (HDu : D = (10 ^ N.of_nat k * u)%N).
    { unfold D, u. rewrite <- N.pow_add_r. f_equal. lia. }
    replace ((w * u + F) * D)%N with (((w * u + F) * 10 ^ N.of_nat k) * u)%N
      by (rewrite HDu; ring).
    rewrite round_div_exact by exact Hu.
    do 2 f_equal. rewrite Hdm, Hf, HDu. ring.
Qed.

(** The round trip for any exponent. *)
Lemma format_parse_roundtrip_any : forall a e,
  0 <= a ->
  exists text, formatTokenDisplay a e = Ok text /\ parseUnits text e = Ok a.
Proof.
  intros a e Ha. exists (display_text (Z.to_N a) e).
  split.
  - rewrite <- (Z2N.id a Ha) at 1. apply formatTokenDisplay_of_N.
  - rewrite parseUnits_display_text. f_equal. now apply Z2N.id.
Qed.

(** C2: for a non-negative amount and an exponent from 0 to 77 the display
    text parses back, at the same exponent, to the amount; so it is for the
    client's two parsers, at 18 and at 6 decimals. *)
Theorem format_parse_roundtrip :
  (forall (a : Z) (e : nat),
      0 <= a -> (e <= 77)%nat ->
      exists text,
        formatTokenDisplay a e = Ok text /\ parseUnits text e = Ok a)
  /\ (forall a : Z,
         0 <= a ->
         exists text,
           formatTokenDisplay a 18 = Ok text
           /\ Client.parseTokenAmount text = Ok a)
  /\ (forall a : Z,
         0 <= a ->
         exists text,
           formatUSDCDisplay a = Ok text /\ Client.parseUSDCAmount text = Ok a).
Proof.
  repeat split.
  - intros a e Ha _. now apply format_parse_roundtrip_any.
  - intros a Ha. exact (format_parse_roundtrip_any a 18 Ha).
  - intros a Ha. exact (format_parse_roundtrip_any a 6 Ha).
Qed.

Lemma format_parse_roundtrip_witness :
  exists text,
    formatTokenDisplay 1500000000000000000 18 = Ok text
    /\ parseUnits text 18 = Ok 1500000000000000000.
Proof.
  apply (proj1 format_parse_roundtrip 1500000000000000000 18%nat); lia.
Defined.

Example roundtrip_test :
  formatTokenDisplay 1000250000 6 = Ok "1000.25"
  /\ parseUnits "1000.25" 6 = Ok 1000250000
  /\ parseUnits "7" 0 = Ok 7
  /\ parseUnits "0.125" 2 = Ok 13
  /\ parseUnits "1.5x" 6 = Throw (InvalidAmountFormat "1.5x")
  /\ parseUnits "-1" 6 = Throw (InvalidAmountFormat "-1").
Proof. repeat split; vm_compute; reflexivity. Qed.

(** ** Percentages *)

Lemma padStart_two_digits_check :
  forallb (fun k => String.eqb (padStart 2 "0" (N_toString (N.of_nat k)))
                               (two_digits (N.of_nat k)))
          (seq 0 100) = true.
Proof. vm_compute. reflexivity. Qed.

Lemma padStart_two_digits : forall f,
  (f < 100)%N -> padStart 2 "0" (N_toString f) = two_digits f.
Proof.
  intros f Hf.
  pose proof padStart_two_digits_check as H.
  rewrite forallb_forall in H.
  specialize (H (N.to_nat f)). rewrite N2Nat.id in H.
  apply String.eqb_eq, H, in_seq. lia.
Qed.

Lemma formatPercentage_hundredths : forall n d p,
  0 <= n -> 0 < d ->
  formatPercentage n d p = Ok (hundredths_text (Z.to_N ((n * 10000) / d))).
Proof.
  intros n d p Hn Hd. unfold formatPercentage, hundredths_text.
  destruct (Z.eqb_spec d 0) as [E|_]; [lia|].
  rewrite div_nonneg_eq by lia. cbn [bind].
  assert (Hq : 0 <= n * 10000 / d) by (apply Z.div_pos; lia).
  set (q := Z.to_N (n * 10000 / d)).
  replace (n * 10000 / d) with (Z.of_N q) by (unfold q; lia).
  rewrite div_nonneg_eq, rem_nonneg_eq by lia. cbn [bind].
  change 100 with (Z.of_N 100).
  rewrite <- N2Z.inj_div, <- N2Z.inj_mod, !toString_of_N.
  pose proof (N.mod_lt q 100 ltac:(lia)) as Hm.
  destruct (N.eqb_spec (q mod 100) 0) as [E|E].
  - rewrite E. reflexivity.
  - destruct (Z.eqb_spec (Z.of_N (q mod 100)) 0) as [E'|_]; [lia|].
    rewrite padStart_two_digits by exact Hm. reflexivity.
Qed.

(** C3, as the specification states it, fails: an eighth is [12.50%] for
    the code, and [12.5%] once trailing zeros are trimmed. *)
Lemma formatPercentage_keeps_trailing_zero :
  formatPercentage 1 8 2 = Ok "12.50%"
  /\ formatPercentage_spec 1 8 2 = Ok "12.5%"
  /\ ~ (forall n d p, 0 < d -> formatPercentage n d p = formatPercentage_spec n d p).
Proof.
  assert (H1 : formatPercentage 1 8 2 = Ok "12.50%") by (vm_compute; reflexivity).
  assert (H2 : formatPercentage_spec 1 8 2 = Ok "12.5%") by (vm_compute; reflexivity).
  split; [exact H1 | split; [exact H2 |]].
  intros H. specialize (H 1 8 2%nat ltac:(lia)).
  rewrite H1, H2 in H. discriminate H.
Qed.

Lemma formatPercentage_untrimmed_2 : forall n d p,
  formatPercentage n d p = formatPercentage_untrimmed n d 2.
Proof.
  intros n d p. unfold formatPercentage, formatPercentage_untrimmed.
  destruct (d =? 0); reflexivity.
Qed.

(** C3, amended: for a numerator that is not negative and a denominator
    above 0, at two precision digits, [formatPercentage] computes
    [n * 10^(2+2) / d] with integer division and splits it into whole
    percents and hundredths as the amount codec splits an amount, without
    trimming: the text is the whole part alone when the hundredths are 0, and
    otherwise the whole part, a ['.'] and the hundredths on exactly two
    digits, a trailing zero kept, each followed by ['%']. *)
Theorem formatPercentage_two_digits :
  forall n d,
    0 <= n -> 0 < d ->
    formatPercentage n d 2
    = Ok (hundredths_text (Z.to_N ((n * 10 ^ Z.of_nat (2 + 2)) / d))).
Proof.
  intros n d Hn Hd. now apply formatPercentage_hundredths.
Qed.

Lemma formatPercentage_two_digits_witness :
  formatPercentage 1 8 2
  = Ok (hundredths_text (Z.to_N ((1 * 10 ^ Z.of_nat (2 + 2)) / 8)))
  /\ hundredths_text (Z.to_N ((1 * 10 ^ Z.of_nat (2 + 2)) / 8)) = "12.50%".
Proof.
  split.
  - apply (formatPercentage_two_digits 1 8); lia.
  - reflexivity.
Defined.

(** C8: the third argument of [formatPercentage] is not read: any two
    precisions give the same text, the one computed at two fractional
    digits; for a non-negative numerator and a denominator above 0 its
    fraction, when there is one, has exactly two digits. *)
Theorem formatPercentage_ignores_precision :
  forall n d (p q : nat),
    formatPercentage n d p = formatPercentage n d q
    /\ formatPercentage n d p = formatPercentage_untrimmed n d 2
    /\ (0 <= n -> 0 < d ->
        formatPercentage n d p
        = Ok (hundredths_text (Z.to_N ((n * 10 ^ 4) / d)))).
Proof.
  intros n d p q. split; [reflexivity | split].
  - apply formatPercentage_untrimmed_2.
  - intros Hn Hd. now apply formatPercentage_hundredths.
Qed.

Lemma formatPercentage_ignores_precision_witness :
  formatPercentage 1 3 0 = formatPercentage 1 3 7
  /\ formatPercentage 1 3 0 = Ok (hundredths_text (Z.to_N ((1 * 10 ^ 4) / 3))).
Proof.
  destruct (formatPercentage_ignores_precision 1 3 0 7) as (H1 & _ & H3).
  split; [exact H1 | apply H3; lia].
Defined.

(** Below zero the division still truncates and the hundredths carry
    their own sign. *)
Example formatPercentage_negative_test :
  formatPercentage (-1) 8 2 = Ok "-12.-50%"
  /\ formatPercentage (-1) 2000 2 = Ok "0.-5%".
Proof. split; vm_compute; reflexivity. Qed.

Example hundredths_text_test :
  hundredths_text 3333 = "33.33%"
  /\ hundredths_text 1250 = "12.50%"
  /\ hundredths_text 5 = "0.05%"
  /\ hundredths_text 5000 = "50%".
Proof. repeat split; vm_compute; reflexivity. Qed.

(** ** The error classifier *)

Import Classifier.

(** C4: the classifier throws on an object whose [message] is not a
    string: [{message: 42}] ends in a [TypeError], where the
    specification asks for a sentence. *)
Theorem parseContractError_throws_on_non_string_message :
  parseContractError (JsObject [("message", JsNumber 42%float)])
  = Throw (TypeError "message.includes is not a function").
Proof. reflexivity. Qed.

(** So does a [message] that is [undefined], and a [message] that is an
    array comes back as it is, not as a string. *)
Remark parseContractError_other_malformed_messages :
  parseContractError (JsObject [("message", JsUndefined)])
  = Throw (TypeError "Cannot read properties of undefined (reading 'includes')")
  /\ parseContractError (JsObject [("message", JsArray [JsBigInt 1])])
     = Ok (JsArray [JsBigInt 1]).
Proof. split; reflexivity. Qed.

(** The part of C4 the code keeps: a string comes back unchanged; an
    object with a string [message] gives a string; a paused contract gives
    the paused sentence; [null], [undefined] and [{}] give the unknown-error
    sentence. *)
Lemma parseContractError_string_message : forall fields m,
  lookup "message" fields = Some (JsString m) ->
  exists s, parseContractError (JsObject fields) = Ok (JsString s).
Proof.
  intros fields m H. unfold parseContractError.
  cbn [truthy typeof_object has_property get_property andb]. rewrite H.
  cbn [call_includes bind].
  repeat match goal with
         | |- context [if ?b then _ else _] => destruct b
         end; eexists; reflexivity.
Qed.

Lemma parseContractError_paused : forall fields m,
  lookup "message" fields = Some (JsString m) ->
  includes "Pausable: paused" m = true ->
  parseContractError (JsObject fields) = Ok (JsString "Contract is currently paused").
Proof.
  intros fields m H Hp. unfold parseContractError.
  cbn [truthy typeof_object has_property get_property andb]. rewrite H.
  cbn [call_includes bind]. now rewrite Hp.
Qed.

Example parseContractError_test :
  parseContractError (JsString "Custom error message")
  = Ok (JsString "Custom error message")
  /\ parseContractError (JsObject [("message", JsString "Pausable: paused")])
     = Ok (JsString "Contract is currently paused")
  /\ parseContractError
       (JsObject [("message", JsString "AccessControl: account missing role")])
     = Ok (JsString "Insufficient permissions for this operation")
  /\ parseContractError JsNull = Ok (JsString "Unknown error occurred")
  /\ parseContractError JsUndefined = Ok (JsString "Unknown error occurred")
  /\ parseContractError (JsObject []) = Ok (JsString "Unknown error occurred").
Proof. repeat split; vm_compute; reflexivity. Qed.

(** ** The client and the transport *)

Module ClientProperties.
Import Client Propagation.

Lemma propagated_from_transport : forall e, propagated e -> from_transport e = true.
Proof. intros e (m & c & f & o & ->). reflexivity. Qed.

Lemma has_rejection_app : forall evs1 evs2,
  has_rejection (evs1 ++ evs2) = has_rejection evs1 || has_rejection evs2.
Proof. intros. apply existsb_app. Qed.

Lemma warnings_app : forall evs1 evs2,
  warnings (evs1 ++ evs2) = (warnings evs1 ++ warnings evs2)%list.
Proof. intros. apply filter_app. Qed.

Section Invariants.
Variable World : Type.

Lemma sound_ret : forall A (a : A), sound (@ret World A a).
Proof. intros A a w H. discriminate H. Qed.

Lemma sound_throw : forall A e, sound (@throw World A e).
Proof. intros A e w H. discriminate H. Qed.

Lemma sound_mbind : forall A B (m : M World A) (k : A -> M World B),
  sound m -> (forall a, sound (k a)) -> sound (mbind m k).
Proof.
  intros A B m k Hm Hk w. unfold mbind. specialize (Hm w).
  destruct (outcome (m w)) as [a|e] eqn:E; cbn [outcome events final].
  - rewrite has_rejection_app. intros H.
    apply orb_true_iff in H as [H|H].
    + destruct (Hm H) as (e & [=] & _).
    + exact (Hk a _ H).
  - intros H. destruct (Hm H) as (e0 & [= <-] & He). eauto.
Qed.

Lemma sound_promise_all2 : forall A B (m1 : M World A) (m2 : M World B),
  sound m1 -> guarded m1 -> sound m2 -> sound (promise_all2 m1 m2).
Proof.
  intros A B m1 m2 H1 G1 H2 w. unfold promise_all2.
  cbn [outcome events final].
  rewrite has_rejection_app. intros H.
  specialize (H1 w). specialize (G1 w). specialize (H2 (final (m1 w))).
  destruct (outcome (m1 w)) as [a|e1].
  - apply orb_true_iff in H as [H|H].
    + destruct (H1 H) as (e & [=] & _).
    + destruct (H2 H) as (e & -> & He). eauto.
  - eauto.
Qed.

Lemma guarded_promise_all2 : forall A B (m1 : M World A) (m2 : M World B),
  guarded m1 -> guarded m2 -> guarded (promise_all2 m1 m2).
Proof.
  intros A B m1 m2 G1 G2 w e. unfold promise_all2.
  cbn [outcome events final].
  specialize (G1 w). specialize (G2 (final (m1 w))).
  destruct (outcome (m1 w)) as [a|e1]; [|intros [= <-]; auto].
  destruct (outcome (m2 (final (m1 w)))) as [b|e2]; [discriminate|].
  intros [= <-]. auto.
Qed.

Lemma propagates_try_catch :
  forall A (body : M World A) handler f,
    sound body -> rethrows handler f ->
    (forall e, from_transport e = true -> propagated (f e)) ->
    propagates (try_catch body handler).
Proof.
  intros A body handler f Hb Hh Hf w. unfold try_catch.
  specialize (Hb w).
  destruct (outcome (body w)) as [a|e] eqn:E.
  - intros H. destruct (Hb H) as (e & He & _). congruence.
  - rewrite Hh. cbn [throw outcome events final]. rewrite app_nil_r. intros H.
    destruct (Hb H) as (e' & [= <-] & He'). eauto.
Qed.

Lemma guarded_try_catch :
  forall A (body : M World A) handler f,
    rethrows handler f -> (forall e, propagated (f e)) ->
    guarded (try_catch body handler).
Proof.
  intros A body handler f Hh Hf w e. unfold try_catch.
  destruct (outcome (body w)) as [a|e0] eqn:E.
  - congruence.
  - rewrite Hh. cbn [throw outcome events final]. intros [= <-].
    apply propagated_from_transport, Hf.
Qed.

Lemma propagates_sound : forall A (m : M World A), propagates m -> sound m.
Proof.
  intros A m H w Hr. destruct (H w Hr) as (e & He & Hp).
  exists e. split; [exact He | now apply propagated_from_transport].
Qed.

Lemma quiet_ret : forall A (a : A), quiet (@ret World A a).
Proof. intros A a w. reflexivity. Qed.

Lemma quiet_throw : forall A e, quiet (@throw World A e).
Proof. intros A e w. reflexivity. Qed.

Lemma quiet_mbind : forall A B (m : M World A) (k : A -> M World B),
  quiet m -> (forall a, quiet (k a)) -> quiet (mbind m k).
Proof.
  intros A B m k Hm Hk w. unfold mbind. specialize (Hm w).
  destruct (outcome (m w)) as [a|e]; cbn [outcome events final].
  - now rewrite warnings_app, Hm, Hk.
  - exact Hm.
Qed.

Lemma quiet_promise_all2 : forall A B (m1 : M World A) (m2 : M World B),
  quiet m1 -> quiet m2 -> quiet (promise_all2 m1 m2).
Proof.
  intros A B m1 m2 H1 H2 w. unfold promise_all2. cbn [outcome events final].
  now rewrite warnings_app, H1, H2.
Qed.

Lemma quiet_try_catch : forall A (body : M World A) handler,
  quiet body -> (forall e, quiet (handler e)) ->
  quiet (try_catch body handler).
Proof.
  intros A body handler Hb Hh w. unfold try_catch. specialize (Hb w).
  destruct (outcome (body w)) as [a|e]; cbn [outcome events final].
  - exact Hb.
  - now rewrite warnings_app, Hb, Hh.
Qed.

End Invariants.

Create HintDb client.
#[global] Hint Resolve sound_ret sound_throw quiet_ret quiet_throw : client.

Section Operations.
Variable World : Type.
Variable transport : forall R : Type, Call R -> World -> (string + R) * World.
Variable clock : World -> Z * World.
Variable config : ContractConfig.

Lemma sound_remote : forall R (c : Call R), sound (remote World transport c).
Proof.
  intros R c w. unfold remote.
  destruct (transport R c w) as [[raw|r] w']; cbn.
  - intros _. eauto.
  - discriminate.
Qed.

Lemma guarded_remote : forall R (c : Call R), guarded (remote World transport c).
Proof.
  intros R c w e. unfold remote.
  destruct (transport R c w) as [[raw|r] w']; cbn.
  - now intros [= <-].
  - discriminate.
Qed.

Lemma quiet_remote : forall R (c : Call R), quiet (remote World transport c).
Proof.
  intros R c w. unfold remote.
  destruct (transport R c w) as [[raw|r] w']; reflexivity.
Qed.

Lemma sound_date_now : sound (date_now World clock).
Proof. intros w. unfold date_now. destruct (clock w). discriminate. Qed.

Lemma quiet_date_now : quiet (date_now World clock).
Proof. intros w. unfold date_now. destruct (clock w). reflexivity. Qed.

Hint Resolve sound_remote guarded_remote quiet_remote
     sound_date_now quiet_date_now : client.

(** One step through the body of an operation. *)
Ltac body_step :=
  match goal with
  | |- _ (if ?b then _ else _) => destruct b
  | |- sound (mbind _ _) => apply sound_mbind; [|intros ?; cbv zeta]
  | |- quiet (mbind _ _) => apply quiet_mbind; [|intros ?; cbv zeta]
  | |- sound (promise_all2 _ _) => apply sound_promise_all2
  | |- guarded (promise_all2 _ _) => apply guarded_promise_all2
  | |- quiet (promise_all2 _ _) => apply quiet_promise_all2
  | |- quiet (try_catch _ _) => apply quiet_try_catch; [|intros ?]
  | |- quiet (match ?e with _ => _ end) => destruct e
  | |- _ => solve [auto with client]
  end.

Ltac body := repeat body_step.

(** An operation whose handler wraps every error. *)
Ltac wrapper :=
  match goal with
  | |- propagates _ =>
      eapply propagates_try_catch;
      [ body
      | intros e; reflexivity
      | intros e _; cbv beta; unfold propagated; eauto 6 ]
  | |- guarded _ =>
      eapply guarded_try_catch;
      [ intros e; reflexivity
      | intros e; cbv beta; unfold propagated; eauto 6 ]
  | |- sound _ => apply propagates_sound; wrapper
  | |- quiet _ => body
  end.

Lemma propagates_getTokenBalance : forall a,
  propagates (getTokenBalance World transport a).
Proof. intros; unfold getTokenBalance; wrapper. Qed.

Lemma guarded_getTokenBalance : forall a,
  guarded (getTokenBalance World transport a).
Proof. intros; unfold getTokenBalance; wrapper. Qed.

Lemma quiet_getTokenBalance : forall a,
  quiet (getTokenBalance World transport a).
Proof. intros; unfold getTokenBalance; wrapper. Qed.

Lemma propagates_getTokenBalanceAtSnapshot : forall a i,
  propagates (getTokenBalanceAtSnapshot World transport a i).
Proof. intros; unfold getTokenBalanceAtSnapshot; wrapper. Qed.

Lemma guarded_getTokenBalanceAtSnapshot : forall a i,
  guarded (getTokenBalanceAtSnapshot World transport a i).
Proof. intros; unfold getTokenBalanceAtSnapshot; wrapper. Qed.

Lemma propagates_getTotalSupplyAtSnapshot : forall i,
  propagates (getTotalSupplyAtSnapshot World transport i).
Proof. intros; unfold getTotalSupplyAtSnapshot; wrapper. Qed.

Lemma guarded_getTotalSupplyAtSnapshot : forall i,
  guarded (getTotalSupplyAtSnapshot World transport i).
Proof. intros; unfold getTotalSupplyAtSnapshot; wrapper. Qed.

Lemma propagates_getEligibleSupplyAtSnapshot : forall i,
  propagates (getEligibleSupplyAtSnapshot World transport i).
Proof. intros; unfold getEligibleSupplyAtSnapshot; wrapper. Qed.

Lemma guarded_getEligibleSupplyAtSnapshot : forall i,
  guarded (getEligibleSupplyAtSnapshot World transport i).
Proof. intros; unfold getEligibleSupplyAtSnapshot; wrapper. Qed.

Lemma propagates_getClaimableAmount : forall a i,
  propagates (getClaimableAmount World transport a i).
Proof. intros; unfold getClaimableAmount; wrapper. Qed.

Lemma guarded_getClaimableAmount : forall a i,
  guarded (getClaimableAmount World transport a i).
Proof. intros; unfold getClaimableAmount; wrapper. Qed.

Lemma quiet_getClaimableAmount : forall a i,
  quiet (getClaimableAmount World transport a i).
Proof. intros; unfold getClaimableAmount; wrapper. Qed.

Lemma propagates_getDistributionInfo : forall i,
  propagates (getDistributionInfo World transport i).
Proof. intros; unfold getDistributionInfo; wrapper. Qed.

Lemma guarded_getDistributionInfo : forall i,
  guarded (getDistributionInfo World transport i).
Proof. intros; unfold getDistributionInfo; wrapper. Qed.

Lemma quiet_getDistributionInfo : forall i,
  quiet (getDistributionInfo World transport i).
Proof. intros; unfold getDistributionInfo; wrapper. Qed.

Hint Resolve propagates_sound
     propagates_getTokenBalance guarded_getTokenBalance
     propagates_getTokenBalanceAtSnapshot guarded_getTokenBalanceAtSnapshot
     propagates_getTotalSupplyAtSnapshot guarded_getTotalSupplyAtSnapshot
     propagates_getEligibleSupplyAtSnapshot guarded_getEligibleSupplyAtSnapshot
     propagates_getClaimableAmount guarded_getClaimableAmount
     propagates_getDistributionInfo guarded_getDistributionInfo
     quiet_getClaimableAmount quiet_getDistributionInfo : client.

(** Without a wallet a write operation stops before any call. *)
Lemma propagates_no_wallet : forall A, propagates (@throw World A no_wallet).
Proof. intros A w H. discriminate H. Qed.

Lemma propagates_createSnapshot :
  propagates (createSnapshot World transport clock config).
Proof.
  unfold createSnapshot.
  destruct (negb (walletClient config)); [apply propagates_no_wallet | wrapper].
Qed.

Lemma propagates_getUserInfo : forall a i,
  propagates (getUserInfo World transport a i).
Proof. intros; unfold getUserInfo; wrapper. Qed.

Lemma propagates_fundDistribution : forall amount,
  propagates (fundDistribution World transport config amount).
Proof.
  intros. unfold fundDistribution.
  destruct (negb (walletClient config)); [apply propagates_no_wallet | wrapper].
Qed.

Lemma propagates_createDistribution : forall i amount,
  propagates (createDistribution World transport clock config i amount).
Proof.
  intros. unfold createDistribution.
  destruct (negb (walletClient config)); [apply propagates_no_wallet | wrapper].
Qed.

(** [claim] hands a passed deadline on as it is, and [depositRevenue]
    a short balance; neither comes from the transport. *)
Lemma propagates_claim : forall i,
  propagates (claim World transport clock config i).
Proof.
  intros. unfold claim.
  destruct (negb (walletClient config)); [apply propagates_no_wallet|].
  eapply propagates_try_catch with
    (f := fun e => match e with
                   | ClaimDeadlinePassedError _ _ => e
                   | _ => ContractInteractionError
                            "Failed to claim profits" "Distributor" "claim" e
                   end).
  - body.
  - intros e. destruct e; reflexivity.
  - intros e He. destruct e; try discriminate He;
      unfold propagated; eauto 6.
Qed.

Lemma quiet_claim : forall i, quiet (claim World transport clock config i).
Proof.
  intros. unfold claim.
  destruct (negb (walletClient config)); [apply quiet_throw|]. body.
Qed.

Lemma propagates_depositRevenue : forall amount,
  propagates (depositRevenue World transport config amount).
Proof.
  intros. unfold depositRevenue.
  destruct (negb (walletClient config)); [apply propagates_no_wallet|].
  eapply propagates_try_catch with
    (f := fun e => match e with
                   | InsufficientBalanceError _ _ _ => e
                   | _ => ContractInteractionError
                            "Failed to deposit revenue" "RevenueVault"
                            "deposit" e
                   end).
  - body.
  - intros e. destruct e; reflexivity.
  - intros e He. destruct e; try discriminate He;
      unfold propagated; eauto 6.
Qed.

Lemma mbind_ok : forall A B (m : M World A) (k : A -> M World B) w a,
  outcome (m w) = Ok a ->
  outcome (mbind m k w) = outcome (k a (final (m w)))
  /\ final (mbind m k w) = final (k a (final (m w)))
  /\ events (mbind m k w)
     = (events (m w) ++ events (k a (final (m w))))%list.
Proof.
  intros A B m k w a H. unfold mbind. rewrite H. auto.
Qed.

Lemma attempt_spec : forall i results w,
  let r := claim World transport clock config i w in
  outcome (attempt World transport clock config i results w)
  = Ok (match outcome r with
        | Ok x => (results ++ [x])%list
        | Throw _ => results
        end)
  /\ final (attempt World transport clock config i results w) = final r
  /\ warnings (events (attempt World transport clock config i results w))
     = match outcome r with
       | Ok _ => []
       | Throw e => [warning_of (i, e)]
       end.
Proof.
  intros i results w r.
  pose proof (quiet_claim i w) as Hq. fold r in Hq.
  unfold attempt, try_catch, mbind, ret, console_warn. fold r.
  destruct (outcome r) as [x|e]; cbn [outcome events final].
  - rewrite warnings_app, Hq. auto.
  - rewrite warnings_app, Hq. auto.
Qed.

Lemma claim_loop_cons : forall i rest results w,
  let r := claim World transport clock config i w in
  let r' := claim_loop World transport clock config rest
              (match outcome r with
               | Ok x => (results ++ [x])%list
               | Throw _ => results
               end) (final r) in
  outcome (claim_loop World transport clock config (i :: rest) results w)
  = outcome r'
  /\ warnings (events (claim_loop World transport clock config (i :: rest)
                                  results w))
     = ((match outcome r with
         | Ok _ => []
         | Throw e => [warning_of (i, e)]
         end) ++ warnings (events r'))%list.
Proof.
  intros i rest results w r r'. subst r'.
  destruct (attempt_spec i results w) as (Ho & Hf & Hw). fold r in Ho, Hf, Hw.
  change (claim_loop World transport clock config (i :: rest) results w)
    with (mbind (attempt World transport clock config i results)
                (fun results' =>
                   claim_loop World transport clock config rest results') w).
  destruct (mbind_ok _ _ (attempt World transport clock config i results)
              (fun results' =>
                 claim_loop World transport clock config rest results')
              w _ Ho) as (-> & _ & ->).
  rewrite warnings_app, Hw, Hf. auto.
Qed.

Lemma claim_loop_spec : forall snapshotIds results w,
  let outs := fst (claim_each World transport clock config snapshotIds w) in
  outcome (claim_loop World transport clock config snapshotIds results w)
  = Ok (results ++ succeeded outs)%list
  /\ warnings (events (claim_loop World transport clock config snapshotIds
                                  results w))
     = map warning_of (failed outs).
Proof.
  induction snapshotIds as [|i rest IH]; intros results w.
  - cbn. now rewrite app_nil_r.
  - destruct (claim_loop_cons i rest results w) as (Ho & Hw).
    cbv zeta in Ho, Hw. cbv zeta. rewrite Ho, Hw. clear Ho Hw.
    cbn [claim_each].
    set (r := claim World transport clock config i w).
    destruct (claim_each World transport clock config rest (final r))
      as [outs w'] eqn:E.
    cbn [fst]. unfold succeeded, failed. cbn [flat_map fst snd].
    fold (succeeded outs). fold (failed outs).
    match goal with
    | |- context [claim_loop _ _ _ _ rest ?acc _] =>
        destruct (IH acc (final r)) as [Ho Hw]
    end.
    cbv zeta in Ho, Hw. rewrite E in Ho, Hw. cbn [fst] in Ho, Hw.
    rewrite Ho, Hw.
    destruct (outcome r) as [x|e]; cbn [app map].
    + now rewrite <- app_assoc.
    + auto.
Qed.

Lemma claim_each_length : forall snapshotIds w,
  let outs := fst (claim_each World transport clock config snapshotIds w) in
  (List.length (succeeded outs) + List.length (failed outs)
   = List.length snapshotIds)%nat.
Proof.
  induction snapshotIds as [|i rest IH]; intros w; [reflexivity|].
  cbn [claim_each].
  set (r := claim World transport clock config i w).
  specialize (IH (final r)). cbv zeta in IH.
  destruct (claim_each World transport clock config rest (final r))
    as [outs w'].
  cbn [fst] in *. unfold succeeded, failed in *. cbn [flat_map fst snd].
  rewrite !length_app.
  destruct (outcome r); cbn [List.length]; lia.
Qed.

Lemma claimMultiple_spec : forall snapshotIds w accounts w1,
  walletClient config = true ->
  transport _ GetAddresses w = (inr accounts, w1) ->
  let outs := fst (claim_each World transport clock config snapshotIds w1) in
  outcome (claimMultiple World transport clock config snapshotIds w)
  = Ok (succeeded outs)
  /\ warnings (events (claimMultiple World transport clock config
                                     snapshotIds w))
     = map warning_of (failed outs)
  /\ (List.length (succeeded outs) + List.length (failed outs)
      = List.length snapshotIds)%nat.
Proof.
  intros ids w accounts w1 Hwallet Hacc outs.
  destruct (claim_loop_spec ids [] w1) as [Ho Hw]. fold outs in Ho, Hw.
  unfold claimMultiple. rewrite Hwallet. cbn [negb].
  unfold try_catch, mbind, remote. rewrite Hacc.
  cbn [outcome events final]. rewrite Ho. cbn [outcome events final app].
  repeat split.
  - cbn [warnings filter is_warning]. exact Hw.
  - apply claim_each_length.
Qed.

Lemma hasRole_spec : forall role a w,
  outcome (hasRole World transport role a w)
  = Ok (match fst (transport _ (TokenHasRole role a) w) with
        | inr b => b
        | inl _ => false
        end)
  /\ warnings (events (hasRole World transport role a w)) = [].
Proof.
  intros role a w. unfold hasRole, try_catch, remote.
  destruct (transport bool (TokenHasRole role a) w) as [[raw|b] w'];
    split; reflexivity.
Qed.

End Operations.

(** C5, as the specification states it, fails: with the transport
    rejecting every call, [hasRole] (which is not [claimMultiple]) answers
    [false]; it throws nothing and writes nothing. *)
Lemma hasRole_swallows_rejection :
  is_claimMultiple (OpHasRole "ADMIN_ROLE" "0x742d35Cc") = false
  /\ has_rejection
       (events (exec unit Scenario.offline Scenario.still_clock
                     Scenario.with_wallet
                     (OpHasRole "ADMIN_ROLE" "0x742d35Cc") tt)) = true
  /\ outcome (exec unit Scenario.offline Scenario.still_clock
                   Scenario.with_wallet
                   (OpHasRole "ADMIN_ROLE" "0x742d35Cc") tt) = Ok false
  /\ warnings
       (events (exec unit Scenario.offline Scenario.still_clock
                     Scenario.with_wallet
                     (OpHasRole "ADMIN_ROLE" "0x742d35Cc") tt)) = [].
Proof. repeat split. Qed.

(** C5, amended: a remote failure is swallowed by two operations only,
    [claimMultiple] and [hasRole]. Every other operation throws a
    [ContractInteractionError] once the transport has rejected one of its
    calls. [claimMultiple], with a wallet whose accounts can be read,
    returns exactly the results of the claims that succeeded, in order, and
    writes one warning for each that failed. [hasRole] answers [false] on a
    rejection and writes no warning. *)
Theorem remote_failures_propagate :
  forall (World : Type)
         (transport : forall R : Type, Call R -> World -> (string + R) * World)
         (clock : World -> Z * World) (config : ContractConfig),
    (forall R (op : Operation R) w,
        is_claimMultiple op = false -> is_hasRole op = false ->
        has_rejection (events (exec World transport clock config op w)) = true ->
        exists e,
          outcome (exec World transport clock config op w) = Throw e
          /\ propagated e)
    /\ (forall snapshotIds w accounts w1,
           walletClient config = true ->
           transport _ GetAddresses w = (inr accounts, w1) ->
           let outs :=
             fst (claim_each World transport clock config snapshotIds w1) in
           outcome (exec World transport clock config
                         (OpClaimMultiple snapshotIds) w)
           = Ok (succeeded outs)
           /\ warnings (events (exec World transport clock config
                                     (OpClaimMultiple snapshotIds) w))
              = map warning_of (failed outs)
           /\ (List.length (succeeded outs) + List.length (failed outs)
               = List.length snapshotIds)%nat)
    /\ (forall role a w,
           outcome (exec World transport clock config (OpHasRole role a) w)
           = Ok (match fst (transport _ (TokenHasRole role a) w) with
                 | inr b => b
                 | inl _ => false
                 end)
           /\ warnings (events (exec World transport clock config
                                     (OpHasRole role a) w)) = []).
Proof.
  intros World transport clock config. split; [|split].
  - intros R op w Hbatch Hrole.
    destruct op; try discriminate Hbatch; try discriminate Hrole;
      cbn [exec].
    + apply propagates_getTokenBalance.
    + apply propagates_getTokenBalanceAtSnapshot.
    + apply propagates_getTotalSupplyAtSnapshot.
    + apply propagates_getEligibleSupplyAtSnapshot.
    + apply propagates_createSnapshot.
    + apply propagates_getClaimableAmount.
    + apply propagates_getDistributionInfo.
    + apply propagates_getUserInfo.
    + apply propagates_claim.
    + apply propagates_depositRevenue.
    + apply propagates_fundDistribution.
    + apply propagates_createDistribution.
  - intros ids w accounts w1 Hwallet Hacc. cbn [exec].
    now apply claimMultiple_spec with (accounts := accounts).
  - intros role a w. cbn [exec]. apply hasRole_spec.
Qed.

Lemma remote_failures_propagate_witness :
  (exists e,
      outcome (exec unit Scenario.offline Scenario.still_clock
                    Scenario.with_wallet (OpClaim 1) tt) = Throw e
      /\ propagated e)
  /\ outcome (exec nat Scenario.ledger Scenario.ticking_clock
                   Scenario.with_wallet (OpClaimMultiple [1; 2; 3]) O)
     = Ok (succeeded
             (fst (claim_each nat Scenario.ledger Scenario.ticking_clock
                              Scenario.with_wallet [1; 2; 3] 1%nat)))
  /\ outcome (exec unit Scenario.offline Scenario.still_clock
                   Scenario.with_wallet
                   (OpHasRole "ADMIN_ROLE" "0xf39Fd6e5") tt) = Ok false
  /\ warnings (events (exec unit Scenario.offline Scenario.still_clock
                            Scenario.with_wallet
                            (OpHasRole "ADMIN_ROLE" "0xf39Fd6e5") tt)) = [].
Proof.
  split; [|split].
  - apply (proj1 (remote_failures_propagate unit Scenario.offline
                    Scenario.still_clock Scenario.with_wallet));
      reflexivity.
  - apply (proj1 (proj2 (remote_failures_propagate nat Scenario.ledger
                           Scenario.ticking_clock Scenario.with_wallet))
             [1; 2; 3] O ["0xf39Fd6e5"] 1%nat); reflexivity.
  - exact (proj2 (proj2 (remote_failures_propagate unit Scenario.offline
                           Scenario.still_clock Scenario.with_wallet))
             "ADMIN_ROLE" "0xf39Fd6e5" tt).
Defined.

Example claimMultiple_test :
  option_map (map claim_snapshotId)
    (match outcome (claimMultiple nat Scenario.ledger Scenario.ticking_clock
                                  Scenario.with_wallet [1; 2; 3] O) with
     | Ok results => Some results
     | Throw _ => None
     end) = Some [1; 3]
  /\ List.length
       (warnings (events (claimMultiple nat Scenario.ledger
                            Scenario.ticking_clock Scenario.with_wallet
                            [1; 2; 3] O))) = 1%nat.
Proof. split; vm_compute; reflexivity. Qed.

End ClientProperties.

(* ===================================================================== *)
(** * Part III: further properties of the helpers *)
(* ===================================================================== *)

Import Holders Texts Validators.

(** ** Shares among holders *)

(** X1: a holder of the whole eligible supply receives the whole pool,
    whatever the pool is. *)
Theorem share_of_whole_supply :
  forall totalDistribution eligibleSupply,
    eligibleSupply <> 0 ->
    calculateUserShare eligibleSupply totalDistribution eligibleSupply
    = Ok totalDistribution.
Proof.
  intros p s Hs. unfold calculateUserShare, BigInt.div.
  destruct (Z.eqb_spec s 0) as [E|_]; [contradiction|].
  now rewrite Z.quot_mul.
Qed.

Lemma share_of_whole_supply_witness :
  calculateUserShare 315000 15000 315000 = Ok 15000.
Proof. apply (share_of_whole_supply 15000 315000). lia. Defined.

(** X2: the share does not depend on the unit the balances are counted
    in: balance and supply scaled by the same factor give the same share. *)
Theorem share_scale_invariant :
  forall k userBalance totalDistribution eligibleSupply,
    k <> 0 ->
    calculateUserShare (k * userBalance) totalDistribution (k * eligibleSupply)
    = calculateUserShare userBalance totalDistribution eligibleSupply.
Proof.
  intros k b p s Hk. unfold calculateUserShare, BigInt.div.
  destruct (Z.eqb_spec s 0) as [->|Hs].
  - now rewrite Z.mul_0_r.
  - destruct (Z.eqb_spec (k * s) 0) as [E|_]; [nia|].
    replace (p * (k * b)) with (k * (p * b)) by ring.
    now rewrite Z.quot_mul_cancel_l.
Qed.

Lemma share_scale_invariant_witness :
  calculateUserShare (1000 * 7) 10 (1000 * 9) = calculateUserShare 7 10 9.
Proof. apply (share_scale_invariant 1000 7 10 9). lia. Defined.

Lemma floor_share_bounds : forall p b s,
  0 < s ->
  s * ((p * b) / s) <= p * b <= s * ((p * b) / s) + (s - 1).
Proof.
  intros p b s Hs.
  pose proof (Z.div_mod (p * b) s ltac:(lia)) as Hdm.
  pose proof (Z.mod_pos_bound (p * b) s Hs) as Hm.
  set (q := (p * b) / s) in *. set (r := (p * b) mod s) in *.
  clearbody q r. lia.
Qed.

Lemma all_shares_floor : forall balances p s,
  0 <= p -> 0 < s -> Forall (fun b => 0 <= b) balances ->
  all_shares balances p s = map Ok (map (fun b => (p * b) / s) balances).
Proof.
  intros balances p s Hp Hs H. unfold all_shares.
  induction H as [|b bs Hb _ IH]; [reflexivity|].
  cbn [map]. rewrite IH. f_equal. now apply calculateUserShare_floor.
Qed.

Lemma total_floor_shares : forall balances p s,
  0 <= p -> 0 < s -> Forall (fun b => 0 <= b) balances ->
  let shares := map (fun b => (p * b) / s) balances in
  Forall (fun x => 0 <= x) shares
  /\ s * total shares <= p * total balances
  /\ p * total balances
     <= s * total shares + (s - 1) * Z.of_nat (List.length balances).
Proof.
  intros balances p s Hp Hs H. cbv zeta.
  induction H as [|b bs Hb _ (IH1 & IH2 & IH3)].
  - cbn. repeat split; [constructor | lia | lia].
  - cbn [map total fold_right List.length]. fold (total bs).
    fold (total (map (fun b => (p * b) / s) bs)).
    pose proof (floor_share_bounds p b s Hs) as [Hlo Hhi].
    set (q := (p * b) / s) in *.
    assert (Hq : 0 <= q) by (apply Z.div_pos; nia).
    set (T := total (map (fun b => (p * b) / s) bs)) in *.
    clearbody q T. rewrite Nat2Z.inj_succ.
    split; [constructor; assumption|]. split; nia.
Qed.

(** X3: the shares of holders whose balances add up to no more than the
    eligible supply never add up to more than the pool; when the balances add
    up to the whole supply, rounding leaves less than one unit per holder
    undistributed. *)
Theorem shares_never_exceed_pool :
  forall balances totalDistribution eligibleSupply,
    0 <= totalDistribution -> 0 < eligibleSupply ->
    Forall (fun b => 0 <= b) balances ->
    total balances <= eligibleSupply ->
    exists shares,
      all_shares balances totalDistribution eligibleSupply = map Ok shares
      /\ Forall (fun x => 0 <= x) shares
      /\ total shares <= totalDistribution
      /\ (total balances = eligibleSupply ->
          totalDistribution - total shares < Z.of_nat (List.length balances)).
Proof.
  intros balances p s Hp Hs Hb Hsum.
  exists (map (fun b => (p * b) / s) balances).
  destruct (total_floor_shares balances p s Hp Hs Hb) as (H1 & H2 & H3).
  cbv zeta in H1, H2, H3.
  set (T := total (map (fun b => (p * b) / s) balances)) in *.
  split; [now apply all_shares_floor|]. split; [exact H1|].
  split.
  - clearbody T. nia.
  - intros E. rewrite E in H3.
    assert (Hn : 0 < Z.of_nat (List.length balances)).
    { destruct balances; [cbn in E; lia | cbn [List.length]; lia]. }
    clearbody T. nia.
Qed.

Lemma shares_never_exceed_pool_witness :
  exists shares,
    all_shares [1; 1; 1] 10 3 = map Ok shares
    /\ Forall (fun x => 0 <= x) shares
    /\ total shares <= 10
    /\ (total [1; 1; 1] = 3 -> 10 - total shares < Z.of_nat 3).
Proof.
  apply (shares_never_exceed_pool [1; 1; 1] 10 3); try lia.
  - repeat constructor; lia.
  - cbn. lia.
Defined.

(** X4: splitting a holding between two accounts never gains anything and
    costs at most one unit. *)
Theorem share_of_split_holding :
  forall bal1 bal2 totalDistribution eligibleSupply,
    0 <= bal1 -> 0 <= bal2 -> 0 <= totalDistribution -> 0 < eligibleSupply ->
    exists share1 share2 shareBoth,
      calculateUserShare bal1 totalDistribution eligibleSupply = Ok share1
      /\ calculateUserShare bal2 totalDistribution eligibleSupply = Ok share2
      /\ calculateUserShare (bal1 + bal2) totalDistribution eligibleSupply
         = Ok shareBoth
      /\ share1 + share2 <= shareBoth <= share1 + share2 + 1.
Proof.
  intros b1 b2 p s H1 H2 Hp Hs.
  exists ((p * b1) / s), ((p * b2) / s), ((p * (b1 + b2)) / s).
  rewrite !calculateUserShare_floor by lia.
  repeat (split; [reflexivity|]).
  pose proof (floor_share_bounds p b1 s Hs).
  pose proof (floor_share_bounds p b2 s Hs).
  pose proof (floor_share_bounds p (b1 + b2) s Hs).
  set (q1 := (p * b1) / s) in *. set (q2 := (p * b2) / s) in *.
  set (q := (p * (b1 + b2)) / s) in *. clearbody q1 q2 q. nia.
Qed.

Lemma share_of_split_holding_witness :
  exists share1 share2 shareBoth,
    calculateUserShare 1 10 3 = Ok share1
    /\ calculateUserShare 1 10 3 = Ok share2
    /\ calculateUserShare (1 + 1) 10 3 = Ok shareBoth
    /\ share1 + share2 <= shareBoth <= share1 + share2 + 1.
Proof. apply (share_of_split_holding 1 1 10 3); lia. Defined.

(** ** The amount text *)

(** X5: the text of an amount tells the amount: two non-negative amounts
    with the same text, at the same number of decimals, are equal. *)
Theorem formatTokenDisplay_injective :
  forall a b decimals,
    0 <= a -> 0 <= b ->
    formatTokenDisplay a decimals = formatTokenDisplay b decimals ->
    a = b.
Proof.
  intros a b e Ha Hb H.
  destruct (format_parse_roundtrip_any a e Ha) as (ta & Fa & Pa).
  destruct (format_parse_roundtrip_any b e Hb) as (tb & Fb & Pb).
  rewrite Fa, Fb in H. injection H as ->. congruence.
Qed.

Lemma formatTokenDisplay_injective_witness : 1500000 = 15 * 10 ^ 5.
Proof.
  apply (formatTokenDisplay_injective 1500000 (15 * 10 ^ 5) 6);
    [lia | lia | reflexivity].
Defined.

(** X6: a whole number of tokens, negative ones included, is written
    without a decimal point. *)
Theorem formatTokenDisplay_whole :
  forall k decimals,
    formatTokenDisplay (k * 10 ^ Z.of_nat decimals) decimals
    = Ok (BigInt.toString k).
Proof.
  intros k e. unfold formatTokenDisplay, BigInt.div, BigInt.rem.
  assert (HD : 10 ^ Z.of_nat e <> 0) by (apply Z.pow_nonzero; lia).
  destruct (Z.eqb_spec (10 ^ Z.of_nat e) 0) as [E|_]; [contradiction|].
  cbn [bind]. now rewrite Z.quot_mul, Z.rem_mul by exact HD.
Qed.

Lemma strip_trailing_zeros_last : forall s,
  ends_with "0" (strip_trailing_zeros s) = false.
Proof.
  induction s as [|c s IH]; [reflexivity|].
  cbn [strip_trailing_zeros].
  destruct (Ascii.eqb_spec c "0") as [->|Hc]; cbn [andb].
  - destruct (strip_trailing_zeros s) as [|c' t]; [reflexivity|].
    cbn [is_empty]. exact IH.
  - destruct (strip_trailing_zeros s) as [|c' t].
    + cbn. now apply Ascii.eqb_neq.
    + exact IH.
Qed.

(** X7: the text of a non-negative amount is canonical. It has a decimal
    point exactly when the amount is not a whole number of tokens; before the
    point stands the whole part; after it stand between one and [decimals]
    digits, the last of them not a zero, which denote the fractional part. *)
Theorem formatTokenDisplay_canonical :
  forall a decimals,
    0 <= a ->
    exists text,
      formatTokenDisplay a decimals = Ok text
      /\ match split_dot text with
         | (w, None) =>
             w = BigInt.toString (a / 10 ^ Z.of_nat decimals)
             /\ a mod 10 ^ Z.of_nat decimals = 0
         | (w, Some f) =>
             w = BigInt.toString (a / 10 ^ Z.of_nat decimals)
             /\ (1 <= String.length f <= decimals)%nat
             /\ ends_with "0" f = false
             /\ exists F,
                 numeral f = Some F
                 /\ Z.of_N F * 10 ^ Z.of_nat (decimals - String.length f)
                    = a mod 10 ^ Z.of_nat decimals
         end.
Proof.
  intros a e Ha.
  rewrite <- (Z2N.id a Ha). set (n := Z.to_N a).
  exists (display_text n e). split; [apply formatTokenDisplay_of_N|].
  rewrite pow10_of_N, <- N2Z.inj_div, <- N2Z.inj_mod, toString_of_N.
  unfold display_text.
  set (D := (10 ^ N.of_nat e)%N).
  assert (HD : (0 < D)%N) by apply pow10_pos.
  pose proof (N.mod_lt n D ltac:(lia)) as Hmod.
  set (w := (n / D)%N). set (f := (n mod D)%N) in *.
  destruct (N.eqb_spec f 0) as [E|E].
  - destruct (split_dot_digits _ _ _ (N_toString_value w)) as [-> _].
    split; [reflexivity | lia].
  - destruct (trimmed_fraction f e E Hmod) as (F & k & HF & Hlen & Hf).
    pose proof (strip_trailing_zeros_last (padStart e "0" (N_toString f)))
      as Hlast.
    set (t := strip_trailing_zeros (padStart e "0" (N_toString f))) in *.
    destruct t as [|c t'] eqn:Et; [discriminate HF|]. cbn [is_empty].
    change ("." ++ String c t') with (String "." (String c t')).
    destruct (split_dot_digits _ _ _ (N_toString_value w)) as [_ ->].
    split; [reflexivity|]. split; [cbn [String.length] in *; lia|].
    split; [exact Hlast|].
    exists F. split; [exact HF|].
    replace (e - String.length (String c t'))%nat with k by lia.
    rewrite pow10_of_N, <- N2Z.inj_mul. f_equal. now symmetry.
Qed.

Lemma formatTokenDisplay_canonical_witness :
  exists text,
    formatTokenDisplay 1500000 6 = Ok text
    /\ match split_dot text with
       | (w, None) =>
           w = BigInt.toString (1500000 / 10 ^ Z.of_nat 6)
           /\ 1500000 mod 10 ^ Z.of_nat 6 = 0
       | (w, Some f) =>
           w = BigInt.toString (1500000 / 10 ^ Z.of_nat 6)
           /\ (1 <= String.length f <= 6)%nat
           /\ ends_with "0" f = false
           /\ exists F,
               numeral f = Some F
               /\ Z.of_N F * 10 ^ Z.of_nat (6 - String.length f)
                  = 1500000 mod 10 ^ Z.of_nat 6
       end.
Proof. apply (formatTokenDisplay_canonical 1500000 6). lia. Defined.

Lemma includes_char_app : forall c s1 s2,
  includes (String c EmptyString) (s1 ++ s2)
  = includes (String c EmptyString) s1 || includes (String c EmptyString) s2.
Proof.
  intros c s1 s2. induction s1 as [|c1 s1 IH].
  - cbn [append]. destruct s2; reflexivity.
  - cbn [append includes String.prefix]. rewrite IH.
    destruct (ascii_dec c c1); [|reflexivity].
    destruct (s1 ++ s2), s1; reflexivity.
Qed.

Lemma includes_minus_zeros : forall k,
  includes "-" (repeat_char "0" k) = false.
Proof. induction k as [|k IH]; [reflexivity|]. cbn. exact IH. Qed.

(** X8: below zero the text is no numeral once there is a fractional part:
    the fraction carries a minus sign of its own after the point, as in
    [-1.-5] for -15 at one decimal. *)
Theorem formatTokenDisplay_negative_fraction :
  forall a decimals,
    a < 0 -> Z.rem a (10 ^ Z.of_nat decimals) <> 0 ->
    exists t,
      formatTokenDisplay a decimals
      = Ok (BigInt.toString (Z.quot a (10 ^ Z.of_nat decimals)) ++ "." ++ t)
      /\ includes "-" t = true.
Proof.
  intros a e Ha Hrem. unfold formatTokenDisplay, BigInt.div, BigInt.rem.
  assert (HD : 0 < 10 ^ Z.of_nat e) by (apply Z.pow_pos_nonneg; lia).
  destruct (Z.eqb_spec (10 ^ Z.of_nat e) 0) as [E|_]; [lia|]. cbn [bind].
  destruct (Z.eqb_spec (Z.rem a (10 ^ Z.of_nat e)) 0) as [E|_]; [contradiction|].
  pose proof (Z.rem_nonpos a (10 ^ Z.of_nat e) ltac:(lia) ltac:(lia)) as Hneg.
  destruct (Z.rem a (10 ^ Z.of_nat e)) as [|p|p] eqn:Er; [lia | lia |].
  cbn [BigInt.toString].
  set (s := padStart e "0" ("-" ++ N_toString (N.pos p))).
  assert (Hs : includes "-" s = true).
  { unfold s, padStart. rewrite includes_char_app. apply orb_true_iff. right.
    rewrite includes_char_app. reflexivity. }
  destruct (strip_trailing_zeros_spec s) as [k Hk].
  rewrite Hk, includes_char_app, includes_minus_zeros, orb_false_r in Hs.
  exists (strip_trailing_zeros s).
  destruct (strip_trailing_zeros s); [discriminate Hs|].
  split; [reflexivity | exact Hs].
Qed.

Lemma formatTokenDisplay_negative_fraction_witness :
  exists t,
    formatTokenDisplay (-15) 1
    = Ok (BigInt.toString (Z.quot (-15) (10 ^ Z.of_nat 1)) ++ "." ++ t)
    /\ includes "-" t = true.
Proof.
  apply (formatTokenDisplay_negative_fraction (-15) 1); [lia | discriminate].
Defined.

Example formatTokenDisplay_negative_test :
  formatTokenDisplay (-15) 1 = Ok "-1.-5"
  /\ formatTokenDisplay (-5) 1 = Ok "0.-5"
  /\ formatTokenDisplay (-20) 1 = Ok "-2".
Proof. repeat split; vm_compute; reflexivity. Qed.

(** ** Percentages *)

(** X9: the whole is [100%] and nothing is [0%], whatever the precision
    asked for; so is anything out of a denominator of 0. *)
Theorem formatPercentage_endpoints :
  forall n d (p : nat),
    (d <> 0 -> formatPercentage d d p = Ok "100%")
    /\ formatPercentage 0 d p = Ok "0%"
    /\ formatPercentage n 0 p = Ok "0%".
Proof.
  intros n d p. split; [|split].
  - intros Hd. unfold formatPercentage, BigInt.div.
    destruct (Z.eqb_spec d 0) as [E|_]; [contradiction|].
    rewrite (Z.mul_comm d 10000), Z.quot_mul by exact Hd.
    reflexivity.
  - unfold formatPercentage, BigInt.div.
    destruct (Z.eqb_spec d 0) as [E|_]; reflexivity.
  - reflexivity.
Qed.

Lemma formatPercentage_endpoints_witness :
  formatPercentage 315000 315000 2 = Ok "100%".
Proof.
  apply (proj1 (formatPercentage_endpoints 0 315000 2)). lia.
Defined.

(** X10: the percentage is cut off, not rounded: the hundredths of a
    percent it shows are the largest that do not exceed the ratio. *)
Theorem formatPercentage_truncates :
  forall n d (p : nat),
    0 <= n -> 0 < d ->
    exists q,
      formatPercentage n d p = Ok (hundredths_text q)
      /\ Z.of_N q * d <= 10000 * n < (Z.of_N q + 1) * d.
Proof.
  intros n d p Hn Hd. exists (Z.to_N ((n * 10000) / d)).
  split; [now apply formatPercentage_hundredths|].
  assert (Hq : 0 <= n * 10000 / d) by (apply Z.div_pos; lia).
  rewrite Z2N.id by exact Hq.
  pose proof (Z.div_mod (n * 10000) d ltac:(lia)) as Hdm.
  pose proof (Z.mod_pos_bound (n * 10000) d Hd) as Hm.
  set (q := n * 10000 / d) in *. set (r := (n * 10000) mod d) in *.
  clearbody q r. nia.
Qed.

Lemma formatPercentage_truncates_witness :
  exists q,
    formatPercentage 2 3 2 = Ok (hundredths_text q)
    /\ Z.of_N q * 3 <= 10000 * 2 < (Z.of_N q + 1) * 3.
Proof. apply (formatPercentage_truncates 2 3 2); lia. Defined.

(** ** No exception from the arithmetic helpers *)

Lemma formatTokenDisplay_returns : forall amount decimals,
  exists text, formatTokenDisplay amount decimals = Ok text.
Proof.
  intros a e. unfold formatTokenDisplay, BigInt.div, BigInt.rem.
  assert (HD : 10 ^ Z.of_nat e <> 0) by (apply Z.pow_nonzero; lia).
  destruct (Z.eqb_spec (10 ^ Z.of_nat e) 0) as [E|_]; [contradiction|].
  cbn [bind]. destruct (Z.rem a (10 ^ Z.of_nat e) =? 0); eauto.
Qed.

Lemma calculateUserShare_returns : forall b p s,
  exists share, calculateUserShare b p s = Ok share.
Proof.
  intros b p s. unfold calculateUserShare, BigInt.div.
  destruct (s =? 0); eauto.
Qed.

(** X11: none of the arithmetic helpers throws, on any bigint, negative
    ones included: every division in them is by a power of ten, by 100, or
    behind a guard against 0. *)
Theorem helpers_never_throw :
  forall (Number_of_string : string -> float) (x y z : Z) (decimals : nat)
         (price : float),
    (exists text, formatTokenDisplay x decimals = Ok text)
    /\ (exists text, formatUSDCDisplay x = Ok text)
    /\ (exists text, formatPercentage x y decimals = Ok text)
    /\ (exists share, calculateUserShare x y z = Ok share)
    /\ (exists apy, calculateAPY Number_of_string x y z price = Ok apy).
Proof.
  intros num x y z e price.
  split; [apply formatTokenDisplay_returns|].
  split; [apply formatTokenDisplay_returns|].
  split.
  { unfold formatPercentage, BigInt.div, BigInt.rem.
    destruct (y =? 0); [eauto|]. cbn.
    destruct (Z.rem (Z.quot (x * 10000) y) 100 =? 0); eauto. }
  split; [apply calculateUserShare_returns|].
  unfold calculateAPY.
  destruct ((z =? 0) || (y =? 0)); [eauto|].
  destruct (calculateUserShare_returns y x z) as [share ->]. cbn [bind].
  unfold formatUSDCDisplay.
  destruct (formatTokenDisplay_returns share 6) as [t1 ->]. cbn [bind].
  destruct (formatTokenDisplay_returns y 18) as [t2 ->]. cbn [bind].
  destruct (PrimFloat.eqb _ _); eauto.
Qed.

(** ** The format validators *)

Lemma prefixed_hex_shape : forall count s,
  prefixed_hex count s = true ->
  exists body,
    s = String "0" (String "x" body)
    /\ String.length body = count /\ all_hex body = true.
Proof.
  intros count s H.
  destruct s as [|c0 s]; [discriminate H|].
  destruct s as [|c1 body];
    [destruct c0 as [[] [] [] [] [] [] [] []]; discriminate H|].
  destruct c0 as [[] [] [] [] [] [] [] []]; try discriminate H.
  destruct c1 as [[] [] [] [] [] [] [] []]; try discriminate H.
  cbn in H. apply andb_true_iff in H as [H1 H2].
  apply Nat.eqb_eq in H1. exists body. auto.
Qed.

(** X12: a well-formed address has 42 characters and a well-formed hash
    66, both starting with [0x] and continuing with hexadecimal digits only;
    so no text is both. *)
Theorem address_and_hash_shapes :
  forall s,
    (isValidAddress s = true ->
     String.length s = 42%nat /\ String.prefix "0x" s = true
     /\ all_hex (String.substring 2 40 s) = true /\ isValidHash s = false)
    /\ (isValidHash s = true ->
        String.length s = 66%nat /\ String.prefix "0x" s = true
        /\ all_hex (String.substring 2 64 s) = true
        /\ isValidAddress s = false).
Proof.
  intros s. split; intros H.
  - destruct (prefixed_hex_shape _ _ H) as (body & -> & Hlen & Hhex).
    assert (Hsub : String.substring 2 40 (String "0" (String "x" body)) = body).
    { cbn [String.substring]. rewrite <- Hlen. clear.
      induction body as [|c b IH]; [reflexivity|].
      cbn [String.length String.substring]. now rewrite IH. }
    rewrite Hsub. cbn [String.length]. rewrite Hlen.
    repeat split; try assumption.
    + destruct body; reflexivity.
    + unfold isValidHash. cbn. rewrite Hlen. reflexivity.
  - destruct (prefixed_hex_shape _ _ H) as (body & -> & Hlen & Hhex).
    assert (Hsub : String.substring 2 64 (String "0" (String "x" body)) = body).
    { cbn [String.substring]. rewrite <- Hlen. clear.
      induction body as [|c b IH]; [reflexivity|].
      cbn [String.length String.substring]. now rewrite IH. }
    rewrite Hsub. cbn [String.length]. rewrite Hlen.
    repeat split; try assumption.
    + destruct body; reflexivity.
    + unfold isValidAddress. cbn. rewrite Hlen. reflexivity.
Qed.

Lemma address_and_hash_shapes_witness :
  String.length "0x742d35Cc6634C0532925a3b8D84Eb5b4FA4FcD3f" = 42%nat
  /\ isValidHash "0x742d35Cc6634C0532925a3b8D84Eb5b4FA4FcD3f" = false.
Proof.
  destruct (address_and_hash_shapes "0x742d35Cc6634C0532925a3b8D84Eb5b4FA4FcD3f")
    as [H _].
  destruct (H eq_refl) as (H1 & _ & _ & H4). split; [exact H1 | exact H4].
Defined.

Example validators_test :
  isValidAddress "0x742d35Cc6634C0532925a3b8D84Eb5b4FA4FcD3f" = true
  /\ isValidAddress "0x742d35" = false
  /\ isValidAddress "742d35Cc6634C0532925a3b8D84Eb5b4FA4FcD3f" = false
  /\ isValidAddress "0xGGGd35Cc6634C0532925a3b8D84Eb5b4FA4FcD3f" = false
  /\ isValidHash
       "0x1234567890abcdef1234567890abcdef1234567890abcdef1234567890abcdef"
     = true
  /\ isValidHash "0x123456" = false.
Proof. repeat split; vm_compute; reflexivity. Qed.

(** ** The chain tables *)

Import Config.

(** X13: [getChainConfig] and [getViemChain] accept the same chain ids,
    those of [SUPPORTED_CHAINS], and reject every other id with the same
    error. The configuration found for an id carries that id, and its four
    contract addresses are well formed. *)
Theorem chain_tables_agree :
  forall (Number_toString : Z -> string) id,
    (In id (map snd SUPPORTED_CHAINS) ->
     exists config chain,
       getChainConfig Number_toString id = Ok config
       /\ getViemChain Number_toString id = Ok chain
       /\ chainId config = id
       /\ isValidAddress (Client.token (contracts config)) = true
       /\ isValidAddress (Client.distributor (contracts config)) = true
       /\ isValidAddress (Client.revenueVault (contracts config)) = true
       /\ isValidAddress (Client.usdc (contracts config)) = true)
    /\ (~ In id (map snd SUPPORTED_CHAINS) ->
        getChainConfig Number_toString id
        = Throw (unsupported Number_toString id)
        /\ getViemChain Number_toString id
           = Throw (unsupported Number_toString id)).
Proof.
  intros num id. split.
  - cbn. intros [<- | [<- | [<- | [<- | []]]]];
      eexists; eexists; repeat split; vm_compute; reflexivity.
  - cbn. intros H.
    unfold getChainConfig, getViemChain. cbn [config_at CHAIN_CONFIGS].
    destruct (Z.eqb_spec 137 id) as [E|_]; [exfalso; tauto|].
    destruct (Z.eqb_spec 80001 id) as [E|_]; [exfalso; tauto|].
    destruct (Z.eqb_spec 31337 id) as [E|_]; [exfalso; tauto|].
    destruct (Z.eqb_spec 246 id) as [E|_]; [exfalso; tauto|].
    destruct (Z.eqb_spec id 137) as [E|_]; [exfalso; subst; tauto|].
    destruct (Z.eqb_spec id 80001) as [E|_]; [exfalso; subst; tauto|].
    destruct (Z.eqb_spec id 31337) as [E|_]; [exfalso; subst; tauto|].
    destruct (Z.eqb_spec id 246) as [E|_]; [exfalso; subst; tauto|].
    split; reflexivity.
Qed.

Lemma chain_tables_agree_witness :
  (exists config chain,
      getChainConfig BigInt.toString 31337 = Ok config
      /\ getViemChain BigInt.toString 31337 = Ok chain
      /\ chainId config = 31337
      /\ isValidAddress (Client.token (contracts config)) = true
      /\ isValidAddress (Client.distributor (contracts config)) = true
      /\ isValidAddress (Client.revenueVault (contracts config)) = true
      /\ isValidAddress (Client.usdc (contracts config)) = true)
  /\ getChainConfig BigInt.toString 1 = Throw (unsupported BigInt.toString 1).
Proof.
  split.
  - apply (proj1 (chain_tables_agree BigInt.toString 31337)). cbn. tauto.
  - apply (proj2 (chain_tables_agree BigInt.toString 1)). cbn. lia.
Defined.

(** X14: where [getViemChain] writes a chain out instead of importing it,
    the chain repeats the configuration of the same id: its id, its name, its
    RPC address and its explorer. *)
Theorem chain_literal_matches_config :
  forall (Number_toString : Z -> string) id config c,
    getChainConfig Number_toString id = Ok config ->
    getViemChain Number_toString id = Ok (chain_literal c) ->
    lit_id c = chainId config
    /\ lit_name c = name config
    /\ lit_rpc_default c = [rpcUrl config]
    /\ lit_rpc_public c = [rpcUrl config]
    /\ Some (lit_explorer_url c) = blockExplorer config.
Proof.
  intros num id config c Hc Hv. unfold getViemChain in Hv.
  destruct (Z.eqb_spec id 137); [discriminate Hv|].
  destruct (Z.eqb_spec id 80001); [discriminate Hv|].
  destruct (Z.eqb_spec id 31337); [discriminate Hv|].
  destruct (Z.eqb_spec id 246) as [->|]; [|discriminate Hv].
  injection Hv as <-. vm_compute in Hc. injection Hc as <-.
  repeat split.
Qed.

Lemma chain_literal_matches_config_witness :
  exists config c,
    getChainConfig BigInt.toString 246 = Ok config
    /\ getViemChain BigInt.toString 246 = Ok (chain_literal c)
    /\ lit_id c = chainId config
    /\ lit_rpc_default c = [rpcUrl config].
Proof.
  destruct (getChainConfig BigInt.toString 246) as [config|] eqn:Hc;
    [|discriminate Hc].
  destruct (getViemChain BigInt.toString 246) as [[| | |c]|] eqn:Hv;
    try discriminate Hv.
  exists config, c.
  destruct (chain_literal_matches_config BigInt.toString 246 config c Hc Hv)
    as (H1 & _ & H3 & _).
  repeat split; assumption.
Defined.

(** ** More on the error classifier *)

Import ErrorTable.

(** X15: what has no [message] to read is an unknown error: numbers,
    booleans, bigints, [null], [undefined], arrays, and objects without that
    field all give the same sentence. *)
Theorem parseContractError_without_message :
  forall v,
    (forall s, v <> JsString s) ->
    has_property "message" v = false ->
    parseContractError v = Ok (JsString "Unknown error occurred").
Proof.
  intros v Hs Hm.
  destruct v as [| | b | x | z | s | items | fields];
    try (exfalso; now apply (Hs s));
    unfold parseContractError; rewrite Hm;
    cbn [typeof_object]; rewrite ?andb_false_r; reflexivity.
Qed.

Lemma parseContractError_without_message_witness :
  parseContractError (JsArray [JsString "Pausable: paused"])
  = Ok (JsString "Unknown error occurred").
Proof.
  apply parseContractError_without_message; [discriminate | reflexivity].
Defined.

(** X16: on an object with a string [message] the classifier follows its
    table: the first known substring that occurs in the message, in the order
    of the table, gives the sentence, and a message with none of them comes
    back unchanged. *)
Theorem parseContractError_follows_table :
  forall fields m,
    lookup "message" fields = Some (JsString m) ->
    parseContractError (JsObject fields) = Ok (JsString (classify m))
    /\ ((forall entry, In entry known_errors -> includes (fst entry) m = false) ->
        parseContractError (JsObject fields) = Ok (JsString m)).
Proof.
  intros fields m H.
  assert (Hc : parseContractError (JsObject fields) = Ok (JsString (classify m))).
  { unfold parseContractError, classify.
    cbn [truthy typeof_object has_property get_property andb]. rewrite H.
    cbn [call_includes bind known_errors find fst snd].
    repeat match goal with
           | |- context [if includes ?p m then _ else _] =>
               destruct (includes p m)
           end; reflexivity. }
  split; [exact Hc|].
  intros Hnone. rewrite Hc. do 2 f_equal. unfold classify.
  destruct (find _ known_errors) as [entry|] eqn:E; [|reflexivity].
  apply find_some in E as [Hin Hinc].
  rewrite (Hnone entry Hin) in Hinc. discriminate Hinc.
Qed.

Lemma parseContractError_follows_table_witness :
  parseContractError
    (JsObject [("message", JsString "Pausable: paused, AccessControl: none")])
  = Ok (JsString
          (classify "Pausable: paused, AccessControl: none")).
Proof.
  destruct (parseContractError_follows_table
              [("message", JsString "Pausable: paused, AccessControl: none")]
              "Pausable: paused, AccessControl: none" eq_refl) as [H _].
  exact H.
Defined.

Example classify_test :
  classify "Pausable: paused, AccessControl: none"
  = "Contract is currently paused"
  /\ classify "execution reverted" = "execution reverted"
  /\ classify "Insufficient USDC balance. Required: 5, Available: 1"
     = "Insufficient USDC balance. Required: 5, Available: 1".
Proof. repeat split; vm_compute; reflexivity. Qed.

(* ===================================================================== *)
(** * Part IV: further properties of the client *)
(* ===================================================================== *)

Module ClientTraffic.
Import Client Propagation Traffic.

Lemma writes_app : forall evs1 evs2,
  writes (evs1 ++ evs2) = (writes evs1 ++ writes evs2)%list.
Proof. intros. apply filter_app. Qed.

Section Combinators.
Variable World : Type.

(** What a [try ... catch] throws was thrown by its body and went through
    the handler, which sent nothing. *)
Lemma try_catch_throw_inv :
  forall A (body : M World A) handler f w e',
    rethrows handler f ->
    outcome (try_catch body handler w) = Throw e' ->
    exists e,
      outcome (body w) = Throw e /\ e' = f e
      /\ events (try_catch body handler w) = events (body w).
Proof.
  intros A body handler f w e' Hh. unfold try_catch.
  destruct (outcome (body w)) as [a|e] eqn:E.
  - rewrite E. discriminate.
  - rewrite Hh. cbn [throw outcome events final]. intros [= <-].
    exists e. now rewrite app_nil_r.
Qed.

Lemma read_only_ret : forall A (a : A), read_only (@ret World A a).
Proof. intros A a w. reflexivity. Qed.

Lemma read_only_throw : forall A e, read_only (@throw World A e).
Proof. intros A e w. reflexivity. Qed.

Lemma read_only_mbind : forall A B (m : M World A) (k : A -> M World B),
  read_only m -> (forall a, read_only (k a)) -> read_only (mbind m k).
Proof.
  intros A B m k Hm Hk w. unfold mbind. specialize (Hm w).
  destruct (outcome (m w)) as [a|e]; cbn [outcome events final].
  - now rewrite writes_app, Hm, Hk.
  - exact Hm.
Qed.

Lemma read_only_promise_all2 : forall A B (m1 : M World A) (m2 : M World B),
  read_only m1 -> read_only m2 -> read_only (promise_all2 m1 m2).
Proof.
  intros A B m1 m2 H1 H2 w. unfold promise_all2. cbn [outcome events final].
  now rewrite writes_app, H1, H2.
Qed.

Lemma read_only_try_catch : forall A (body : M World A) handler,
  read_only body -> (forall e, read_only (handler e)) ->
  read_only (try_catch body handler).
Proof.
  intros A body handler Hb Hh w. unfold try_catch. specialize (Hb w).
  destruct (outcome (body w)) as [a|e]; cbn [outcome events final].
  - exact Hb.
  - now rewrite writes_app, Hb, Hh.
Qed.

Lemma throws_only_ret : forall A (a : A) Q, throws_only (@ret World A a) Q.
Proof. intros A a Q w e H. discriminate H. Qed.

Lemma throws_only_throw : forall A e (Q : Thrown -> Prop),
  Q e -> throws_only (@throw World A e) Q.
Proof. intros A e Q H w e' [= <-]. exact H. Qed.

Lemma throws_only_mbind :
  forall A B (m : M World A) (k : A -> M World B) Q,
    throws_only m Q -> (forall a, throws_only (k a) Q) ->
    throws_only (mbind m k) Q.
Proof.
  intros A B m k Q Hm Hk w e. unfold mbind. specialize (Hm w).
  destruct (outcome (m w)) as [a|e0]; cbn [outcome events final].
  - apply Hk.
  - intros [= <-]. now apply Hm.
Qed.

Lemma throws_only_promise_all2 :
  forall A B (m1 : M World A) (m2 : M World B) Q,
    throws_only m1 Q -> throws_only m2 Q ->
    throws_only (promise_all2 m1 m2) Q.
Proof.
  intros A B m1 m2 Q H1 H2 w e. unfold promise_all2.
  cbn [outcome events final].
  specialize (H1 w). specialize (H2 (final (m1 w))).
  destruct (outcome (m1 w)) as [a|e1]; [|intros [= <-]; auto].
  destruct (outcome (m2 (final (m1 w)))) as [b|e2]; [discriminate|].
  intros [= <-]. auto.
Qed.

Lemma throws_only_try_catch :
  forall A (body : M World A) handler f (Q : Thrown -> Prop),
    rethrows handler f -> (forall e, Q (f e)) ->
    throws_only (try_catch body handler) Q.
Proof.
  intros A body handler f Q Hh Hf w e' H.
  destruct (try_catch_throw_inv _ _ _ _ _ _ Hh H) as (e & _ & -> & _).
  apply Hf.
Qed.

Lemma throws_only_weaken :
  forall A (m : M World A) (Q Q' : Thrown -> Prop),
    throws_only m Q -> (forall e, Q e -> Q' e) -> throws_only m Q'.
Proof. intros A m Q Q' H HQ w e He. apply HQ, (H w e He). Qed.

Lemma returns_ret : forall A (a : A) (P : A -> Prop),
  P a -> returns (@ret World A a) P.
Proof. intros A a P H w a' [= <-]. exact H. Qed.

Lemma returns_throw : forall A e (P : A -> Prop), returns (@throw World A e) P.
Proof. intros A e P w a H. discriminate H. Qed.

Lemma returns_mbind :
  forall A B (m : M World A) (k : A -> M World B)
         (Q : A -> Prop) (P : B -> Prop),
    returns m Q -> (forall a, Q a -> returns (k a) P) ->
    returns (mbind m k) P.
Proof.
  intros A B m k Q P Hm Hk w b. unfold mbind. specialize (Hm w).
  destruct (outcome (m w)) as [a|e]; cbn [outcome events final].
  - apply Hk. now apply Hm.
  - discriminate.
Qed.

Lemma returns_any : forall A (m : M World A), returns m (fun _ => True).
Proof. intros A m w a _. exact I. Qed.

Lemma returns_try_catch :
  forall A (body : M World A) handler (P : A -> Prop),
    returns body P -> (forall e, returns (handler e) P) ->
    returns (try_catch body handler) P.
Proof.
  intros A body handler P Hb Hh w a. unfold try_catch. specialize (Hb w).
  destruct (outcome (body w)) as [a0|e] eqn:E; cbn [outcome events final].
  - rewrite E. apply Hb.
  - apply Hh.
Qed.

Lemma clean_stop_ret : forall A (a : A) C, clean_stop C (@ret World A a).
Proof. intros A a C w e H. discriminate H. Qed.

Lemma clean_stop_throw : forall A e C, clean_stop C (@throw World A e).
Proof. intros A e C w e' _ _. reflexivity. Qed.

(** After reads only, a clean stop of what follows is a clean stop of the
    whole. *)
Lemma clean_stop_mbind :
  forall A B (m : M World A) (k : A -> M World B) C,
    read_only m -> (forall a, clean_stop C (k a)) ->
    clean_stop C (mbind m k).
Proof.
  intros A B m k C Hm Hk w e. unfold mbind. specialize (Hm w).
  destruct (outcome (m w)) as [a|e0]; cbn [outcome events final].
  - intros H HC. rewrite writes_app, Hm. exact (Hk a _ e H HC).
  - intros _ _. exact Hm.
Qed.

(** Reading a successful run backwards. *)
Lemma mbind_ok_inv :
  forall A B (m : M World A) (k : A -> M World B) w b,
    outcome (mbind m k w) = Ok b ->
    exists a, outcome (m w) = Ok a /\ outcome (k a (final (m w))) = Ok b.
Proof.
  intros A B m k w b. unfold mbind.
  destruct (outcome (m w)) as [a|e]; cbn [outcome events final].
  - intros H. eauto.
  - discriminate.
Qed.

Lemma try_catch_ok_inv :
  forall A (body : M World A) handler f w a,
    rethrows handler f ->
    outcome (try_catch body handler w) = Ok a ->
    outcome (body w) = Ok a.
Proof.
  intros A body handler f w a Hh. unfold try_catch.
  destruct (outcome (body w)) as [a0|e] eqn:E.
  - rewrite E. auto.
  - rewrite Hh. cbn [throw outcome events final]. discriminate.
Qed.

Lemma promise_all2_ok_inv :
  forall A B (m1 : M World A) (m2 : M World B) w p,
    outcome (promise_all2 m1 m2 w) = Ok p ->
    outcome (m1 w) = Ok (fst p)
    /\ outcome (m2 (final (m1 w))) = Ok (snd p).
Proof.
  intros A B m1 m2 w p. unfold promise_all2. cbn [outcome events final].
  destruct (outcome (m1 w)) as [a|e1]; [|discriminate].
  destruct (outcome (m2 (final (m1 w)))) as [b|e2]; [|discriminate].
  intros [= <-]. auto.
Qed.

(** What never throws an error of the class stops cleanly. *)
Lemma clean_stop_outside :
  forall A (m : M World A) C,
    throws_only m (fun e => C e = false) -> clean_stop C m.
Proof.
  intros A m C H w e He HC. rewrite (H w e He) in HC. discriminate HC.
Qed.

End Combinators.

Create HintDb traffic.
#[global] Hint Resolve read_only_ret read_only_throw throws_only_ret
  returns_throw clean_stop_ret clean_stop_throw : traffic.

Section Operations.
Variable World : Type.
Variable transport : forall R : Type, Call R -> World -> (string + R) * World.
Variable clock : World -> Z * World.
Variable config : ContractConfig.

Lemma events_remote : forall R (c : Call R) w,
  (exists r, outcome (remote World transport c w) = Ok r
             /\ events (remote World transport c w) = [Answered c])
  \/ (exists raw, outcome (remote World transport c w) = Throw (RemoteFailure raw)
                  /\ events (remote World transport c w) = [Rejected c raw]).
Proof.
  intros R c w. unfold remote.
  destruct (transport R c w) as [[raw|r] w']; cbn; eauto.
Qed.

Lemma remote_ok_inv : forall R (c : Call R) w r,
  outcome (remote World transport c w) = Ok r ->
  exists w',
    transport R c w = (inr r, w')
    /\ final (remote World transport c w) = w'.
Proof.
  intros R c w r. unfold remote.
  destruct (transport R c w) as [[raw|r0] w']; cbn; [discriminate|].
  intros [= <-]. eauto.
Qed.

Lemma read_only_remote : forall R (c : Call R),
  is_write_call c = false -> read_only (remote World transport c).
Proof.
  intros R c Hc w.
  destruct (events_remote R c w) as [(r & _ & ->) | (raw & _ & ->)];
    cbn; now rewrite Hc.
Qed.

Lemma throws_only_remote : forall R (c : Call R) (Q : Thrown -> Prop),
  (forall raw, Q (RemoteFailure raw)) ->
  throws_only (remote World transport c) Q.
Proof.
  intros R c Q HQ w e.
  destruct (events_remote R c w) as [(r & -> & _) | (raw & -> & _)].
  - discriminate.
  - intros [= <-]. apply HQ.
Qed.

Lemma read_only_date_now : read_only (date_now World clock).
Proof. intros w. unfold date_now. destruct (clock w). reflexivity. Qed.

Lemma throws_only_date_now : forall Q, throws_only (date_now World clock) Q.
Proof. intros Q w e. unfold date_now. destruct (clock w). discriminate. Qed.

(** [Date.now()] gives a reading of the clock. *)
Lemma returns_date_now :
  returns (date_now World clock) (fun t => exists w, t = fst (clock w)).
Proof.
  intros w t. unfold date_now. destruct (clock w) as [t' w'] eqn:E.
  cbn. intros [= <-]. exists w. now rewrite E.
Qed.

Lemma read_only_console_warn : forall msg e,
  read_only (@console_warn World msg e).
Proof. intros msg e w. reflexivity. Qed.

Hint Resolve read_only_date_now throws_only_date_now read_only_console_warn
  : traffic.

(** One step through a body. *)
Ltac walk_step :=
  match goal with
  | |- _ (if ?b then _ else _) => destruct b
  | |- read_only (mbind _ _) => apply read_only_mbind; [|intros ?; cbv zeta]
  | |- read_only (promise_all2 _ _) => apply read_only_promise_all2
  | |- read_only (try_catch _ _) => apply read_only_try_catch; [|intros ?]
  | |- read_only (remote _ _ _) => apply read_only_remote; reflexivity
  | |- read_only (match ?e with _ => _ end) => destruct e
  | |- throws_only (mbind _ _) _ =>
      apply throws_only_mbind; [|intros ?; cbv zeta]
  | |- throws_only (promise_all2 _ _) _ => apply throws_only_promise_all2
  | |- throws_only (remote _ _ _) _ =>
      apply throws_only_remote; intros ?; cbn; auto
  | |- _ => solve [auto with traffic]
  end.

Ltac walk := repeat walk_step.

(** *** The reading operations *)

Lemma read_only_getTokenBalance : forall a,
  read_only (getTokenBalance World transport a).
Proof. intros. unfold getTokenBalance. walk. Qed.

Lemma read_only_getTokenBalanceAtSnapshot : forall a i,
  read_only (getTokenBalanceAtSnapshot World transport a i).
Proof. intros. unfold getTokenBalanceAtSnapshot. walk. Qed.

Lemma read_only_getTotalSupplyAtSnapshot : forall i,
  read_only (getTotalSupplyAtSnapshot World transport i).
Proof. intros. unfold getTotalSupplyAtSnapshot. walk. Qed.

Lemma read_only_getEligibleSupplyAtSnapshot : forall i,
  read_only (getEligibleSupplyAtSnapshot World transport i).
Proof. intros. unfold getEligibleSupplyAtSnapshot. walk. Qed.

Lemma read_only_getClaimableAmount : forall a i,
  read_only (getClaimableAmount World transport a i).
Proof. intros. unfold getClaimableAmount. walk. Qed.

Lemma read_only_getDistributionInfo : forall i,
  read_only (getDistributionInfo World transport i).
Proof. intros. unfold getDistributionInfo. walk. Qed.

Hint Resolve read_only_getTokenBalance read_only_getTokenBalanceAtSnapshot
  read_only_getTotalSupplyAtSnapshot read_only_getEligibleSupplyAtSnapshot
  read_only_getClaimableAmount read_only_getDistributionInfo : traffic.

Lemma read_only_getUserInfo : forall a i,
  read_only (getUserInfo World transport a i).
Proof. intros. unfold getUserInfo. walk. Qed.

Lemma read_only_hasRole : forall role a,
  read_only (hasRole World transport role a).
Proof. intros. unfold hasRole. walk. Qed.

(** X17: the operations that need no wallet, the seven readers and
    [hasRole], never submit a transaction, whatever the transport answers. *)
Theorem readers_never_transact :
  forall R (op : Operation R) w,
    requires_wallet op = false ->
    writes (events (exec World transport clock config op w)) = [].
Proof.
  intros R op w H.
  destruct op; try discriminate H; cbn [exec].
  - apply read_only_getTokenBalance.
  - apply read_only_getTokenBalanceAtSnapshot.
  - apply read_only_getTotalSupplyAtSnapshot.
  - apply read_only_getEligibleSupplyAtSnapshot.
  - apply read_only_getClaimableAmount.
  - apply read_only_getDistributionInfo.
  - apply read_only_getUserInfo.
  - apply read_only_hasRole.
Qed.

(** X18: without a wallet client every writing operation stops at once
    with the plain error, before any call leaves: nothing is sent and the
    world is as it was. *)
Theorem writers_need_a_wallet :
  forall R (op : Operation R) w,
    walletClient config = false -> requires_wallet op = true ->
    outcome (exec World transport clock config op w) = Throw no_wallet
    /\ events (exec World transport clock config op w) = []
    /\ final (exec World transport clock config op w) = w.
Proof.
  intros R op w Hw H.
  destruct op; try discriminate H; cbn [exec];
    unfold createSnapshot, claim, claimMultiple, depositRevenue,
      fundDistribution, createDistribution;
    rewrite Hw; repeat split.
Qed.

(** *** [claim] *)

Lemma claim_unfold : forall i,
  claim World transport clock config i
  = if negb (walletClient config) then throw no_wallet
    else try_catch (claim_body World transport clock i)
           (fun error =>
              match error with
              | ClaimDeadlinePassedError _ _ => throw error
              | _ => throw (ContractInteractionError
                       "Failed to claim profits" "Distributor" "claim" error)
              end).
Proof. reflexivity. Qed.

Lemma claim_rethrows :
  rethrows (World := World) (A := ClaimResult)
    (fun error =>
       match error with
       | ClaimDeadlinePassedError _ _ => throw error
       | _ => throw (ContractInteractionError
                "Failed to claim profits" "Distributor" "claim" error)
       end) claim_handler.
Proof. intros e. destruct e; reflexivity. Qed.

Lemma clean_stop_claim_body : forall i,
  clean_stop is_check_failure (claim_body World transport clock i).
Proof.
  intros i. unfold claim_body.
  apply clean_stop_mbind; [walk|]. intros accounts. cbv zeta.
  apply clean_stop_mbind; [walk|]. intros r.
  destruct (fst (snd r)); [apply clean_stop_throw|].
  destruct (fst r =? 0); [apply clean_stop_throw|].
  destruct (negb (isActive (snd (snd r)))); [apply clean_stop_throw|].
  apply clean_stop_outside. walk.
Qed.

(** X19: [claim] checks before it transacts. When it fails because the
    snapshot was already claimed, because there is nothing to claim or
    because the deadline has passed, or for want of a wallet, no transaction
    has been submitted. *)
Theorem claim_checks_before_it_transacts :
  forall snapshotId w e,
    outcome (claim World transport clock config snapshotId w) = Throw e ->
    reports_check_failure e = true ->
    writes (events (claim World transport clock config snapshotId w)) = [].
Proof.
  intros i w e'. rewrite claim_unfold.
  destruct (negb (walletClient config)); [reflexivity|].
  intros H Hc.
  destruct (try_catch_throw_inv _ _ _ _ _ _ _ claim_rethrows H)
    as (e & He & -> & ->).
  apply (clean_stop_claim_body i w e He).
  destruct e; cbn in Hc |- *; congruence.
Qed.

Lemma claim_returns_requested :
  forall snapshotId w r,
    outcome (claim World transport clock config snapshotId w) = Ok r ->
    claim_snapshotId r = snapshotId /\ claim_amount r <> 0.
Proof.
  intros i w r. revert w r.
  change (returns (claim World transport clock config i)
                  (fun r => claim_snapshotId r = i /\ claim_amount r <> 0)).
  rewrite claim_unfold.
  destruct (negb (walletClient config)); [apply returns_throw|].
  apply returns_try_catch;
    [|intros e; destruct e; apply returns_throw].
  unfold claim_body.
  eapply returns_mbind; [apply returns_any|]. intros accounts _. cbv zeta.
  eapply returns_mbind; [apply returns_any|]. intros r _.
  destruct (fst (snd r)); [apply returns_throw|].
  destruct (Z.eqb_spec (fst r) 0) as [|Hne]; [apply returns_throw|].
  destruct (negb (isActive (snd (snd r)))); [apply returns_throw|].
  eapply returns_mbind; [apply returns_any|]. intros hash _.
  eapply returns_mbind; [apply returns_any|]. intros receipt _.
  eapply returns_mbind; [apply returns_any|]. intros now _.
  apply returns_ret. split; [reflexivity | exact Hne].
Qed.

(** X20: what [claim] returns is a result for the snapshot asked for and
    for the first account of the wallet, and its amount is the one the
    distributor answered as claimable for that snapshot and account, read
    right after the accounts and before the transaction; that amount is not
    0. *)
Theorem claim_result :
  forall snapshotId w r,
    outcome (claim World transport clock config snapshotId w) = Ok r ->
    exists accounts w1 w2,
      transport _ GetAddresses w = (inr accounts, w1)
      /\ transport _ (DistributorClaimable snapshotId (first_account accounts))
                   w1
         = (inr (claim_amount r), w2)
      /\ claim_user r = first_account accounts
      /\ claim_snapshotId r = snapshotId
      /\ claim_amount r <> 0.
Proof.
  intros i w r. rewrite claim_unfold.
  destruct (negb (walletClient config)); [discriminate|].
  intros H. apply (try_catch_ok_inv _ _ _ _ _ _ _ claim_rethrows) in H.
  unfold claim_body in H.
  apply mbind_ok_inv in H as (accounts & Hacc & H).
  apply remote_ok_inv in Hacc as (w1 & Hacc & Hw1). rewrite Hw1 in H.
  cbv zeta in H.
  apply mbind_ok_inv in H as (r0 & Hall & H).
  apply promise_all2_ok_inv in Hall as [Hcl _].
  unfold getClaimableAmount in Hcl.
  eapply try_catch_ok_inv in Hcl; [|intros e; reflexivity].
  apply remote_ok_inv in Hcl as (w2 & Hcl & _).
  exists accounts, w1, w2.
  destruct (fst (snd r0)); [discriminate H|].
  destruct (Z.eqb_spec (fst r0) 0) as [|Hne]; [discriminate H|].
  destruct (negb (isActive (snd (snd r0)))); [discriminate H|].
  apply mbind_ok_inv in H as (hash & _ & H).
  apply mbind_ok_inv in H as (receipt & _ & H).
  apply mbind_ok_inv in H as (now & _ & H).
  cbn [ret outcome] in H. injection H as <-.
  cbn [claim_amount claim_user claim_snapshotId].
  repeat split; assumption.
Qed.

Lemma returns_claim_loop : forall (P : ClaimResult -> Prop) snapshotIds results,
  (forall i, In i snapshotIds ->
             returns (claim World transport clock config i) P) ->
  Forall P results ->
  returns (claim_loop World transport clock config snapshotIds results)
          (Forall P).
Proof.
  intros P ids. induction ids as [|i rest IH]; intros results Hc Hr.
  - now apply returns_ret.
  - cbn [claim_loop].
    apply returns_mbind with (Q := Forall P).
    + apply returns_try_catch.
      * apply returns_mbind with (Q := P); [apply Hc; now left|].
        intros r Hp. apply returns_ret.
        apply Forall_app. split; [exact Hr | now constructor].
      * intros e. eapply returns_mbind; [apply returns_any|].
        intros _ _. now apply returns_ret.
    + intros results' Hr'. apply IH; [|exact Hr'].
      intros j Hj. apply Hc. now right.
Qed.

(** X21: every result [claimMultiple] returns is for one of the snapshots
    asked for and carries an amount that is not 0: nothing is reported for a
    snapshot that was not requested or for an empty claim. *)
Theorem claimMultiple_results :
  forall snapshotIds w results,
    outcome (claimMultiple World transport clock config snapshotIds w)
    = Ok results ->
    Forall (fun r => In (claim_snapshotId r) snapshotIds /\ claim_amount r <> 0)
           results.
Proof.
  intros ids w results. revert w results.
  change (returns (claimMultiple World transport clock config ids)
            (Forall (fun r => In (claim_snapshotId r) ids
                              /\ claim_amount r <> 0))).
  unfold claimMultiple.
  destruct (negb (walletClient config)); [apply returns_throw|].
  apply returns_try_catch; [|intros e; apply returns_throw].
  eapply returns_mbind; [apply returns_any|]. intros accounts _.
  apply returns_claim_loop; [|constructor].
  intros i Hi w r Hr.
  destruct (claim_returns_requested i w r Hr) as [-> Ha].
  split; assumption.
Qed.

(** *** [depositRevenue] *)

Lemma depositRevenue_unfold : forall amount,
  depositRevenue World transport config amount
  = if negb (walletClient config) then throw no_wallet
    else try_catch (deposit_body World transport config amount)
           (fun error =>
              match error with
              | InsufficientBalanceError _ _ _ => throw error
              | _ => throw (ContractInteractionError
                       "Failed to deposit revenue" "RevenueVault" "deposit"
                       error)
              end).
Proof. reflexivity. Qed.

Lemma deposit_rethrows :
  rethrows (World := World) (A := Hash)
    (fun error =>
       match error with
       | InsufficientBalanceError _ _ _ => throw error
       | _ => throw (ContractInteractionError
                "Failed to deposit revenue" "RevenueVault" "deposit" error)
       end) deposit_handler.
Proof. intros e. destruct e; reflexivity. Qed.

Lemma clean_stop_deposit_body : forall amount,
  clean_stop is_insufficient_balance (deposit_body World transport config amount).
Proof.
  intros amount. unfold deposit_body.
  apply clean_stop_mbind; [walk|]. intros accounts. cbv zeta.
  apply clean_stop_mbind; [walk|]. intros available.
  destruct (available <? amount); [apply clean_stop_throw|].
  apply clean_stop_outside. walk.
Qed.

Lemma throws_only_deposit_body : forall amount,
  throws_only (deposit_body World transport config amount)
    (fun e => is_insufficient_balance e = true ->
              exists available,
                e = InsufficientBalanceError amount available "USDC"
                /\ available < amount).
Proof.
  intros amount. unfold deposit_body.
  apply throws_only_mbind;
    [apply throws_only_remote; intros raw; discriminate|].
  intros accounts. cbv zeta.
  apply throws_only_mbind;
    [apply throws_only_remote; intros raw; discriminate|].
  intros available.
  destruct (Z.ltb_spec available amount) as [Hlt|_].
  - apply throws_only_throw. intros _. eauto.
  - repeat (apply throws_only_mbind;
            [apply throws_only_remote; intros raw; discriminate | intros ?]).
    apply throws_only_ret.
Qed.


(** *** The errors of the client and the classifier *)

Ltac own_wrapper :=
  eapply throws_only_try_catch;
  [ intros e; reflexivity
  | intros e; cbv beta; unfold own_message, wrapper_messages;
    repeat (first [left; reflexivity | right]) ].

Lemma exec_own_message : forall R (op : Operation R),
  throws_only (exec World transport clock config op) own_message.
Proof.
  intros R op. destruct op; cbn [exec].
  - unfold getTokenBalance. own_wrapper.
  - unfold getTokenBalanceAtSnapshot. own_wrapper.
  - unfold getTotalSupplyAtSnapshot. own_wrapper.
  - unfold getEligibleSupplyAtSnapshot. own_wrapper.
  - unfold createSnapshot.
    destruct (negb (walletClient config));
      [now apply throws_only_throw | own_wrapper].
  - unfold getClaimableAmount. own_wrapper.
  - unfold getDistributionInfo. own_wrapper.
  - unfold getUserInfo. own_wrapper.
  - rewrite claim_unfold.
    destruct (negb (walletClient config)); [now apply throws_only_throw|].
    apply throws_only_try_catch with (f := claim_handler);
      [apply claim_rethrows|].
    intros e. destruct e; cbn; auto 20.
  - unfold claimMultiple.
    destruct (negb (walletClient config));
      [now apply throws_only_throw | own_wrapper].
  - rewrite depositRevenue_unfold.
    destruct (negb (walletClient config)); [now apply throws_only_throw|].
    apply throws_only_try_catch with (f := deposit_handler);
      [apply deposit_rethrows|].
    intros e. destruct e; cbn; auto 20.
  - unfold fundDistribution.
    destruct (negb (walletClient config));
      [now apply throws_only_throw | own_wrapper].
  - unfold createDistribution.
    destruct (negb (walletClient config));
      [now apply throws_only_throw | own_wrapper].
  - intros w e H.
    destruct (ClientProperties.hasRole_spec World transport role a w) as [Ho _].
    rewrite Ho in H. discriminate H.
Qed.

Lemma own_messages_unclassified : forall msg,
  In msg wrapper_messages -> ErrorTable.classify msg = msg.
Proof.
  intros msg H. unfold wrapper_messages in H. cbn [In] in H.
  repeat (destruct H as [<- | H]; [vm_compute; reflexivity|]).
  contradiction.
Qed.

(** X23: the classifier does not see through the client's own errors. A
    [ContractInteractionError] thrown by any operation carries one of the
    client's thirteen "Failed to ..." messages, and [parseContractError]
    answers that message, whatever the original error underneath says: a
    paused contract reached through the client is not reported as paused. *)
Theorem client_errors_are_not_classified :
  forall R (op : Operation R) w msg contractName functionName original
         (originalObject : Classifier.JsValue),
    outcome (exec World transport clock config op w)
    = Throw (ContractInteractionError msg contractName functionName original) ->
    In msg wrapper_messages
    /\ Classifier.parseContractError
         (ContractInteractionError_object msg contractName functionName
                                          originalObject)
       = Ok (Classifier.JsString msg).
Proof.
  intros R op w msg cn fn o obj H.
  pose proof (exec_own_message R op w _ H) as Hin. cbn in Hin.
  split; [exact Hin|].
  destruct (parseContractError_follows_table
              [ ("message", Classifier.JsString msg);
                ("name", Classifier.JsString "ENR1MSDKError");
                ("code", Classifier.JsString "CONTRACT_INTERACTION_ERROR");
                ("details", obj);
                ("contractName", Classifier.JsString cn);
                ("functionName", Classifier.JsString fn);
                ("originalError", obj) ] msg eq_refl) as [Hc _].
  unfold ContractInteractionError_object. rewrite Hc.
  now rewrite own_messages_unclassified.
Qed.

(** *** [createSnapshot] *)

(** X24: the snapshot id [createSnapshot] reports is a reading of the
    clock in milliseconds, and its timestamp a reading in seconds: neither
    comes from the contract. *)
Theorem createSnapshot_reports_the_clock :
  forall w r,
    outcome (createSnapshot World transport clock config w) = Ok r ->
    (exists w1, snap_snapshotId r = fst (clock w1))
    /\ (exists w2, snap_timestamp r = fst (clock w2) / 1000).
Proof.
  change (returns (createSnapshot World transport clock config)
            (fun r => (exists w1, snap_snapshotId r = fst (clock w1))
                      /\ (exists w2, snap_timestamp r = fst (clock w2) / 1000))).
  unfold createSnapshot.
  destruct (negb (walletClient config)); [apply returns_throw|].
  apply returns_try_catch; [|intros e; apply returns_throw].
  eapply returns_mbind; [apply returns_any|]. intros hash _.
  eapply returns_mbind; [apply returns_any|]. intros blockNumber _.
  eapply returns_mbind; [apply returns_date_now|]. intros snapshotId Hs.
  eapply returns_mbind; [apply returns_any|]. intros supplies _.
  eapply returns_mbind; [apply returns_date_now|]. intros now [w2 Hn].
  apply returns_ret. cbn. split; [exact Hs|].
  exists w2. now rewrite Hn.
Qed.

End Operations.

(** *** Runs *)

Lemma readers_never_transact_witness :
  writes (events (exec nat Scenario.ledger Scenario.ticking_clock
                       Scenario.with_wallet
                       (OpGetUserInfo "0xf39Fd6e5" 1) O)) = [].
Proof. apply readers_never_transact. reflexivity. Defined.

Lemma writers_need_a_wallet_witness :
  outcome (exec nat Scenario.ledger Scenario.ticking_clock
                MoreScenarios.without_wallet (OpClaim 1) O)
  = Throw no_wallet
  /\ events (exec nat Scenario.ledger Scenario.ticking_clock
                  MoreScenarios.without_wallet (OpClaim 1) O) = []
  /\ final (exec nat Scenario.ledger Scenario.ticking_clock
                 MoreScenarios.without_wallet (OpClaim 1) O) = O.
Proof. apply writers_need_a_wallet; reflexivity. Defined.

Lemma claim_checks_before_it_transacts_witness :
  writes (events (claim nat MoreScenarios.already_claimed
                        Scenario.ticking_clock Scenario.with_wallet 1 O)) = [].
Proof.
  apply (claim_checks_before_it_transacts nat MoreScenarios.already_claimed
           Scenario.ticking_clock Scenario.with_wallet 1 O
           (ContractInteractionError
              "Failed to claim profits" "Distributor" "claim"
              (PlainError "Already claimed for this snapshot")));
    reflexivity.
Defined.

Lemma claim_result_witness :
  exists r accounts w1 w2,
    outcome (claim nat Scenario.ledger Scenario.ticking_clock
                   Scenario.with_wallet 1 O) = Ok r
    /\ Scenario.ledger _ GetAddresses O = (inr accounts, w1)
    /\ Scenario.ledger _ (DistributorClaimable 1 (first_account accounts)) w1
       = (inr (claim_amount r), w2)
    /\ claim_user r = first_account accounts
    /\ claim_snapshotId r = 1
    /\ claim_amount r <> 0.
Proof.
  destruct (outcome (claim nat Scenario.ledger Scenario.ticking_clock
                           Scenario.with_wallet 1 O)) as [r|e] eqn:E;
    [|discriminate E].
  destruct (claim_result nat Scenario.ledger Scenario.ticking_clock
              Scenario.with_wallet 1 O r E)
    as (accounts & w1 & w2 & H1 & H2 & H3 & H4 & H5).
  exists r, accounts, w1, w2. repeat split; assumption.
Defined.

Lemma claimMultiple_results_witness :
  exists results,
    outcome (claimMultiple nat Scenario.ledger Scenario.ticking_clock
                           Scenario.with_wallet [1; 2; 3] O) = Ok results
    /\ Forall (fun r => In (claim_snapshotId r) [1; 2; 3]
                        /\ claim_amount r <> 0) results.
Proof.
  destruct (outcome (claimMultiple nat Scenario.ledger Scenario.ticking_clock
                                   Scenario.with_wallet [1; 2; 3] O))
    as [results|e] eqn:E; [|discriminate E].
  exists results. split; [reflexivity|].
  exact (claimMultiple_results nat Scenario.ledger Scenario.ticking_clock
           Scenario.with_wallet [1; 2; 3] O results E).
Defined.


Lemma client_errors_are_not_classified_witness :
  Classifier.parseContractError
    (ContractInteractionError_object
       "Failed to get token balance" "ENR1MToken" "balanceOf"
       (Classifier.JsObject [("message", Classifier.JsString "Pausable: paused")]))
  = Ok (Classifier.JsString "Failed to get token balance").
Proof.
  apply (client_errors_are_not_classified unit MoreScenarios.paused
           Scenario.still_clock Scenario.with_wallet Z
           (OpGetTokenBalance "0xf39Fd6e5") tt
           "Failed to get token balance" "ENR1MToken" "balanceOf"
           (RemoteFailure "Pausable: paused")).
  reflexivity.
Defined.

Lemma createSnapshot_reports_the_clock_witness :
  exists r,
    outcome (createSnapshot nat Scenario.ledger Scenario.ticking_clock
                            Scenario.with_wallet O) = Ok r
    /\ (exists w1, snap_snapshotId r = fst (Scenario.ticking_clock w1)).
Proof.
  destruct (outcome (createSnapshot nat Scenario.ledger Scenario.ticking_clock
                                    Scenario.with_wallet O)) as [r|e] eqn:E;
    [|discriminate E].
  exists r. split; [reflexivity|].
  exact (proj1 (createSnapshot_reports_the_clock nat Scenario.ledger
                  Scenario.ticking_clock Scenario.with_wallet O r E)).
Defined.

(** A closed distribution stops [claim] with the deadline error, and with
    a wrapped [RangeError] when the deadline is no date. *)
Example claim_after_the_deadline_test :
  outcome (claim nat (MoreScenarios.lapsed 1705248000) Scenario.ticking_clock
                 Scenario.with_wallet 1 O)
  = Throw (ClaimDeadlinePassedError 1 1705248000)
  /\ outcome (claim nat (MoreScenarios.lapsed (10 ^ 13))
                    Scenario.ticking_clock Scenario.with_wallet 1 O)
     = Throw (ContractInteractionError
                "Failed to claim profits" "Distributor" "claim"
                (RangeError "Invalid time value")).
Proof. split; vm_compute; reflexivity. Qed.

Example more_scenarios_test :
  outcome (claim nat MoreScenarios.already_claimed Scenario.ticking_clock
                 Scenario.with_wallet 1 O)
  = Throw (ContractInteractionError
             "Failed to claim profits" "Distributor" "claim"
             (PlainError "Already claimed for this snapshot"))
  /\ outcome (depositRevenue nat MoreScenarios.short_of_usdc
                             Scenario.with_wallet 1000 O)
     = Throw (InsufficientBalanceError 1000 5 "USDC")
  /\ outcome (depositRevenue nat Scenario.ledger Scenario.with_wallet 1000 O)
     = Ok "0xabchash".
Proof. repeat split; vm_compute; reflexivity. Qed.

End ClientTraffic.
